(** * Logseq-to-Obsidian: a shallow embedding of the two migration scripts

    The development embeds the reference migrator ([sanitize_text_for_linking],
    [convert_logseq_properties_to_yaml], [phase_one_build_db],
    [phase_two_process_and_write]) and the alias normaliser
    ([process_markdown_file]) and states the properties of the specification
    over these definitions.

    Python [str] values are sequences of Unicode code points; they are
    modelled as [list N], one number per code point.  The identifier
    database is a [dict] used as a map ([gmap]); the [properties] dict of the
    header converter is iterated in insertion order and is therefore an
    association list.  The walk over the vault ([find_markdown_files]) and
    the batch run of the normaliser ([batch_process_vault]) are embedded over
    a tree of directories as [os.walk] lists it. *)

From Stdlib Require Import NArith String Ascii Permutation.
From stdpp Require Import gmap list.

Local Open Scope N_scope.
Local Open Scope list_scope.

(** ** Python strings *)

(** ASCII literals: one code point per character. *)
Definition lit (s : string) : list N :=
  List.map N_of_ascii (list_ascii_of_string s).

(** [Py_UNICODE_ISSPACE]: the characters removed by [str.strip()] and matched
    by [\s] in a [str] pattern. *)
Definition is_space (c : N) : bool :=
  ((0x09 <=? c) && (c <=? 0x0D)) || ((0x1C <=? c) && (c <=? 0x20))
  || (c =? 0x85) || (c =? 0xA0) || (c =? 0x1680)
  || ((0x2000 <=? c) && (c <=? 0x200A))
  || (c =? 0x2028) || (c =? 0x2029) || (c =? 0x202F) || (c =? 0x205F)
  || (c =? 0x3000).

Fixpoint lstrip (s : list N) : list N :=
  match s with
  | c :: t => if is_space c then lstrip t else s
  | [] => []
  end.

Definition rstrip (s : list N) : list N := rev (lstrip (rev s)).

(** [s.strip()] *)
Definition strip (s : list N) : list N := rstrip (lstrip s).

(** [s.startswith(p)] *)
Fixpoint startswith (p s : list N) : bool :=
  match p, s with
  | [], _ => true
  | a :: p', b :: s' => (a =? b) && startswith p' s'
  | _ :: _, [] => false
  end.

(** [sub in s] *)
Fixpoint contains (sub s : list N) : bool :=
  startswith sub s ||
  match s with
  | [] => false
  | _ :: t => contains sub t
  end.

(** [s.replace(old, new)] for a non-empty [old]: the occurrences are taken
    from the left and do not overlap.  [skip] counts the characters of a
    matched occurrence that are still to be dropped. *)
Fixpoint replace_go (old new : list N) (skip : nat) (s : list N) : list N :=
  match s with
  | [] => []
  | c :: t =>
    match skip with
    | S k => replace_go old new k t
    | O =>
      if startswith old s
      then new ++ replace_go old new (Nat.pred (length old)) t
      else c :: replace_go old new 0 t
    end
  end.

Definition replace (old new s : list N) : list N := replace_go old new 0 s.

(** [s.split(sep)] for a non-empty [sep]; [cur] is the piece being read, in
    reverse. *)
Fixpoint split_go (sep : list N) (skip : nat) (cur s : list N) : list (list N) :=
  match s with
  | [] => [rev cur]
  | c :: t =>
    match skip with
    | S k => split_go sep k cur t
    | O =>
      if startswith sep s
      then rev cur :: split_go sep (Nat.pred (length sep)) [] t
      else split_go sep 0 (c :: cur) t
    end
  end.

Definition split (sep s : list N) : list (list N) := split_go sep 0 [] s.

(** [s.split(sep, 1)]: at most one cut, at the first occurrence. *)
Fixpoint split1_go (sep cur s : list N) : list (list N) :=
  match s with
  | [] => [rev cur]
  | c :: t =>
    if startswith sep s then [rev cur; drop (length sep) s]
    else split1_go sep (c :: cur) t
  end.

Definition split1 (sep s : list N) : list (list N) := split1_go sep [] s.

(** ** The sanitiser *)

Definition STAR : N := 0x2605.          (* the star glyph *)
Definition FW_COLON : N := 0xFF1A.      (* fullwidth colon *)
Definition FW_QUESTION : N := 0xFF1F.   (* fullwidth question mark *)
Definition L_ANGLE : N := 0x3008.       (* left angle bracket glyph *)
Definition R_ANGLE : N := 0x3009.       (* right angle bracket glyph *)
Definition L_DQUOTE : N := 0x201C.      (* left double quotation mark *)
Definition FW_BAR : N := 0xFF5C.        (* fullwidth vertical line *)
Definition IDEO_COMMA : N := 0x3001.    (* ideographic comma *)

(** The ten [str.replace] calls of [sanitize_text_for_linking]. *)
Inductive rule : Set :=
| R_dstar | R_star | R_colon | R_question | R_lt | R_gt
| R_dquote | R_bar | R_backslash | R_slash.

Definition rule_old (r : rule) : list N :=
  match r with
  | R_dstar => [42; 42]
  | R_star => [42]
  | R_colon => [58]
  | R_question => [63]
  | R_lt => [60]
  | R_gt => [62]
  | R_dquote => [34]
  | R_bar => [124]
  | R_backslash => [92]
  | R_slash => [47]
  end.

Definition rule_new (r : rule) : list N :=
  match r with
  | R_dstar => [STAR]
  | R_star => [STAR]
  | R_colon => [FW_COLON]
  | R_question => [FW_QUESTION]
  | R_lt => [L_ANGLE]
  | R_gt => [R_ANGLE]
  | R_dquote => [L_DQUOTE]
  | R_bar => [FW_BAR]
  | R_backslash => [IDEO_COMMA]
  | R_slash => [45]
  end.

Definition apply_rule (r : rule) (text : list N) : list N :=
  replace (rule_old r) (rule_new r) text.

Definition sanitize_text_for_linking (text : list N) : list N :=
  let text := apply_rule R_star (apply_rule R_dstar text) in
  let text := apply_rule R_colon text in
  let text := apply_rule R_question text in
  let text := apply_rule R_gt (apply_rule R_lt text) in
  let text := apply_rule R_dquote text in
  let text := apply_rule R_bar text in
  let text := apply_rule R_backslash text in
  let text := apply_rule R_slash text in
  text.

(** The substitutions applied in an arbitrary order. *)
Definition apply_rules (order : list rule) (text : list N) : list N :=
  fold_left (fun t r => apply_rule r t) order text.

(** The order in which the source applies them. *)
Definition source_order : list rule :=
  [R_dstar; R_star; R_colon; R_question; R_lt; R_gt;
   R_dquote; R_bar; R_backslash; R_slash].

Definition rule_eqb (a b : rule) : bool :=
  match a, b with
  | R_dstar, R_dstar | R_star, R_star | R_colon, R_colon
  | R_question, R_question | R_lt, R_lt | R_gt, R_gt
  | R_dquote, R_dquote | R_bar, R_bar | R_backslash, R_backslash
  | R_slash, R_slash => true
  | _, _ => false
  end.

(** [precedes a b order]: the first [a] of [order] comes before a [b]. *)
Fixpoint precedes (a b : rule) (order : list rule) : bool :=
  match order with
  | [] => false
  | r :: q =>
    if rule_eqb r a then existsb (rule_eqb b) q
    else if rule_eqb r b then false
    else precedes a b q
  end.

(** The characters the sanitiser is meant to remove: asterisk, colon,
    question mark, less-than, greater-than, double quote, vertical bar,
    backslash and slash. *)
Definition forbidden (c : N) : bool :=
  (c =? 42) || (c =? 58) || (c =? 63) || (c =? 60) || (c =? 62)
  || (c =? 34) || (c =? 124) || (c =? 92) || (c =? 47).


(** ** The two patterns *)

Definition uuid_char (c : N) : bool :=
  ((97 <=? c) && (c <=? 102)) || ((48 <=? c) && (c <=? 57)) || (c =? 45).

(** [[a-f0-9\-]{36}] read at the start of [s]. *)
Definition uuid_at (s : list N) : option (list N) :=
  let u := take 36 s in
  if (length u =? 36)%nat && forallb uuid_char u then Some u else None.

(** [UUID_PATTERN] tried at the start of [s]: the text [id::], any white
    space, then the 36 characters.  White space and identifier characters are
    disjoint, so the greedy [\s*] never has to give a character back. *)
Definition UUID_PATTERN_at (s : list N) : option (list N) :=
  if startswith (lit "id::") s then uuid_at (lstrip (drop 4 s)) else None.

(** [UUID_PATTERN.search(line)], returning [match.group(1)]. *)
Fixpoint UUID_PATTERN_search (s : list N) : option (list N) :=
  match UUID_PATTERN_at s with
  | Some u => Some u
  | None =>
    match s with
    | [] => None
    | _ :: t => UUID_PATTERN_search t
    end
  end.

(** [BLOCK_REF_PATTERN] tried at the start of [s]; a match is 40 characters
    long and the result is [group(1)]. *)
Definition BLOCK_REF_PATTERN_at (s : list N) : option (list N) :=
  if startswith (lit "((") s then
    match uuid_at (drop 2 s) with
    | Some u => if startswith (lit "))") (drop 38 s) then Some u else None
    | None => None
    end
  else None.

Definition BLOCK_REF_PATTERN_fullmatch (s : list N) : bool :=
  match BLOCK_REF_PATTERN_at s with
  | Some _ => (length s =? 40)%nat
  | None => false
  end.

(** [BLOCK_REF_PATTERN.sub(repl, line)]; [repl] receives [group(1)] and
    [group(0)] of each match. *)
Fixpoint block_ref_sub_go (repl : list N → list N → list N) (skip : nat)
    (s : list N) : list N :=
  match s with
  | [] => []
  | c :: t =>
    match skip with
    | S k => block_ref_sub_go repl k t
    | O =>
      match BLOCK_REF_PATTERN_at s with
      | Some u => repl u (take 40 s) ++ block_ref_sub_go repl 39 t
      | None => c :: block_ref_sub_go repl 0 t
      end
    end
  end.

Definition BLOCK_REF_PATTERN_sub (repl : list N → list N → list N)
    (line : list N) : list N :=
  block_ref_sub_go repl 0 line.

Fixpoint leading_space (s : list N) : list N :=
  match s with
  | c :: t => if is_space c then c :: leading_space t else []
  | [] => []
  end.

(** The [re.match] of [original_content_line] against optional white space,
    a hyphen and optional white space, anchored at the start; the result is
    [group(1)]. *)
Definition prefix_match (line : list N) : option (list N) :=
  match lstrip line with
  | c :: r =>
    if c =? 45 then Some (leading_space line ++ [45] ++ leading_space r)
    else None
  | [] => None
  end.

(** ** The header converter *)

Definition is_empty (s : list N) : bool :=
  match s with [] => true | _ :: _ => false end.

(** [d[k] = v] on a dict whose iteration order matters: an existing key keeps
    its place. *)
Fixpoint dict_set {V : Type} (k : list N) (v : V) (d : list (list N * V))
    : list (list N * V) :=
  match d with
  | [] => [(k, v)]
  | (k', v') :: d' =>
    if decide (k' = k) then (k', v) :: d' else (k', v') :: dict_set k v d'
  end.

Record header_state := {
  properties : list (list N * list (list N));
  property_lines_count : nat;
  in_properties_block : bool
}.

(** How one iteration of a [for] loop ends. *)
Inductive loop_exit (A : Type) : Type :=
| Next (a : A)
| Break (a : A)
| Return_unchanged.
Arguments Next {A} a.
Arguments Break {A} a.
Arguments Return_unchanged {A}.

(** A line that has the separator and is not a list item. *)
Definition has_property_syntax (line_stripped : list N) : bool :=
  contains (lit "::") line_stripped && negb (startswith (lit "- ") line_stripped).

(** The body of [if in_properties_block:] at line [i]. *)
Definition record_property (i : nat) (line_stripped : list N)
    (st : header_state) : header_state :=
  match split1 (lit "::") line_stripped with
  | [] => st
  | key :: value_parts =>
    let key := strip key in
    if is_empty key then st
    else
      let value_str :=
        match value_parts with v :: _ => strip v | [] => [] end in
      let key := if decide (key = lit "alias") then lit "aliases" else key in
      let values :=
        List.filter (fun v => negb (is_empty v))
                    (List.map strip (split [44] value_str)) in
      {| properties := dict_set key values (properties st);
         property_lines_count := S i;
         in_properties_block := in_properties_block st |}
  end.

Definition header_step (lines : list (list N)) (i : nat) (line : list N)
    (st : header_state) : loop_exit header_state :=
  let line_stripped := strip line in
  if has_property_syntax line_stripped then
    let is_property_line :=
      (i =? 0)%nat || in_properties_block st ||
      match lines !! Nat.pred i with
      | Some prev => is_empty (strip prev)
      | None => false
      end in
    if is_property_line then
      let st := {| properties := properties st;
                   property_lines_count := property_lines_count st;
                   in_properties_block := true |} in
      Next (if in_properties_block st
            then record_property i line_stripped st else st)
    else Break st
  else if is_empty line_stripped && in_properties_block st then Next st
  else if in_properties_block st then Break st
  else Return_unchanged.

(** The [for i, line in enumerate(lines)] loop; [None] is the early
    [return lines, 0]. *)
Fixpoint header_loop (lines : list (list N)) (i : nat) (rest : list (list N))
    (st : header_state) : option header_state :=
  match rest with
  | [] => Some st
  | line :: rest' =>
    match header_step lines i line st with
    | Next st' => header_loop lines (S i) rest' st'
    | Break st' => Some st'
    | Return_unchanged => None
    end
  end.

Definition FENCE : list N := Eval cbv in lit "---" ++ [10].

Definition yaml_entry (kv : list N * list (list N)) : list (list N) :=
  (fst kv ++ lit ":" ++ [10])
  :: List.map (fun value => lit "  - " ++ [34] ++ value ++ [34; 10]) (snd kv).

Definition render_yaml (props : list (list N * list (list N))) : list (list N) :=
  [FENCE] ++ concat (List.map yaml_entry props) ++ [FENCE].

Definition convert_logseq_properties_to_yaml (lines : list (list N))
    : list (list N) * nat :=
  match header_loop lines 0 lines
          {| properties := []; property_lines_count := 0;
             in_properties_block := false |} with
  | None => (lines, 0%nat)
  | Some st =>
    match properties st with
    | [] => (lines, 0%nat)
    | _ :: _ =>
      let yaml_lines := render_yaml (properties st) in
      (yaml_lines ++ drop (property_lines_count st) lines, length yaml_lines)
    end
  end.

(** ** The scanner (phase one) *)

Definition is_sidecar (s : list N) : bool :=
  startswith (lit "ls-type::") s || startswith (lit "hl-page::") s
  || startswith (lit "hl-color::") s.

(** [for j in range(i - 1, -1, -1)]: the first argument counts the lines
    still to visit, so the line visited is [lines[j]] for [j1 = j + 1].  The
    result is [(page_num, content_line_index)], [None] standing for the
    initial [None] and [-1].  Neither [default] is ever used: [j] is below
    the length of [lines], and an [hl-page::] line always has a second piece
    (lemma [hl_page_has_value]), so the walk raises nothing. *)
Fixpoint backward_walk (lines : list (list N)) (j1 : nat)
    (page_num : option (list N)) : option (list N) * option nat :=
  match j1 with
  | O => (page_num, None)
  | S j =>
    let prev_line := strip (default [] (lines !! j)) in
    if startswith (lit "hl-page::") prev_line then
      backward_walk lines j
        (Some (strip (default [] (split (lit "::") prev_line !! 1%nat))))
    else if startswith (lit "ls-type::") prev_line
            || startswith (lit "hl-color::") prev_line then
      backward_walk lines j page_num
    else (page_num, Some j)
  end.

(** Truth value of [page_num]: neither [None] nor the empty string. *)
Definition truthy (page_num : option (list N)) : bool :=
  match page_num with
  | Some (_ :: _) => true
  | _ => false
  end.

(** The text stored for a declaration at line [i], or [None] when the
    declaration is skipped. *)
Definition block_text (lines : list (list N)) (i : nat) : option (list N) :=
  let '(page_num, content_line_index) := backward_walk lines i None in
  match content_line_index with
  | None => None
  | Some idx =>
    let content_text := strip (default [] (lines !! idx)) in
    let temp_content :=
      if startswith (lit "- ") content_text
      then strip (drop 2 content_text) else content_text in
    if BLOCK_REF_PATTERN_fullmatch temp_content then None
    else
      let content_text :=
        if startswith (lit "- ") content_text
        then strip (drop 2 content_text) else content_text in
      let final_content :=
        if truthy page_num
        then content_text ++ lit " page-" ++ default [] page_num
        else content_text in
      Some (sanitize_text_for_linking final_content)
  end.

(** One iteration of [for i, line in enumerate(lines)]. *)
Definition scan_line (lines : list (list N)) (i : nat) (line : list N)
    (db : gmap (list N) (list N)) : gmap (list N) (list N) :=
  match UUID_PATTERN_search line with
  | None => db
  | Some uuid_val =>
    match block_text lines i with
    | None => db
    | Some text => <[uuid_val := text]> db
    end
  end.

Fixpoint scan_from (lines : list (list N)) (i : nat) (rest : list (list N))
    (db : gmap (list N) (list N)) : gmap (list N) (list N) :=
  match rest with
  | [] => db
  | line :: rest' => scan_from lines (S i) rest' (scan_line lines i line db)
  end.

Definition scan_lines (lines : list (list N)) (db : gmap (list N) (list N))
    : gmap (list N) (list N) :=
  scan_from lines 0 lines db.

(** ** The rewriter (phase two), on the lines of one file *)

(** The replacement function given to [BLOCK_REF_PATTERN.sub]:
    [id_db.get(m.group(1), m.group(0))] between double square brackets. *)
Definition render_ref (db : gmap (list N) (list N)) (g1 g0 : list N) : list N :=
  lit "[[" ++ default g0 (db !! g1) ++ lit "]]".

(** The inner [while j < len(...) and ...startswith(...)] loop, on the lines
    from index [j] on. *)
Fixpoint mark_sidecars (tail : list (list N)) (j : nat) (del : gset nat)
    : gset nat :=
  match tail with
  | l :: tail' =>
    if is_sidecar (strip l) then mark_sidecars tail' (S j) ({[j]} ∪ del)
    else del
  | [] => del
  end.

(** One iteration of [while i < len(lines_to_process)]. *)
Definition rewrite_step (db : gmap (list N) (list N))
    (st : list (list N) * gset nat) (i : nat) : list (list N) * gset nat :=
  let '(lines_to_process, lines_to_delete) := st in
  match lines_to_process !! i with
  | None => st
  | Some line =>
    let lines_to_process :=
      <[i := BLOCK_REF_PATTERN_sub (render_ref db) line]> lines_to_process in
    match lines_to_process !! S i with
    | None => (lines_to_process, lines_to_delete)
    | Some next_line =>
      match UUID_PATTERN_search next_line with
      | None => (lines_to_process, lines_to_delete)
      | Some uuid_val =>
        match db !! uuid_val with
        | None => (lines_to_process, lines_to_delete)
        | Some text =>
          let original_content_line := default [] (lines_to_process !! i) in
          let prefix := default [] (prefix_match original_content_line) in
          let new_content_line := prefix ++ lit "[[" ++ text ++ lit "]]" ++ [10] in
          (<[i := new_content_line]> lines_to_process,
           mark_sidecars (drop (S (S i)) lines_to_process) (S (S i))
                         ({[S i]} ∪ lines_to_delete))
        end
      end
    end
  end.

(** [[line for idx, line in enumerate(...) if idx not in lines_to_delete]] *)
Fixpoint keep_lines (idx : nat) (lines : list (list N)) (del : gset nat)
    : list (list N) :=
  match lines with
  | [] => []
  | l :: t =>
    if decide (idx ∈ del) then keep_lines (S idx) t del
    else l :: keep_lines (S idx) t del
  end.

(** Everything [phase_two_process_and_write] does between reading and
    writing one file. *)
Definition transform_lines (db : gmap (list N) (list N))
    (lines : list (list N)) : list (list N) :=
  let '(new_lines, props_offset) := convert_logseq_properties_to_yaml lines in
  let '(lines_to_process, lines_to_delete) :=
    fold_left (rewrite_step db) (seq 0 (length new_lines)) (new_lines, ∅) in
  keep_lines 0 lines_to_process lines_to_delete.

(** ** Files, failures and the two passes *)

(** A file of the vault: its decoded text, if it can be read, and whether it
    can be opened for writing. *)
Record file_node := {
  data : option (list N);
  writable : bool
}.

Inductive exn : Set :=
| FileNotFoundError
| ReadError
| PermissionError.

Inductive phase : Set := Phase1 | Phase2.

(** An error record of the log: the pass, the file path and the exception. *)
Record log_record := {
  log_phase : phase;
  log_path : list N;
  log_exn : exn
}.

(** The state the script works on: the file system, the global [id_db] and
    the error log. *)
Record world := {
  fs : gmap (list N) file_node;
  id_db : gmap (list N) (list N);
  log : list log_record
}.

(** Computations that read and change the world and may raise. *)
Definition M (A : Type) : Type := world → (exn + A) * world.

Definition ret {A : Type} (a : A) : M A := fun w => (inr a, w).

Definition bind {A B : Type} (m : M A) (k : A → M B) : M B :=
  fun w =>
    match m w with
    | (inl e, w') => (inl e, w')
    | (inr a, w') => k a w'
    end.

#[global] Instance M_ret : MRet M := @ret.
#[global] Instance M_bind : MBind M := fun A B k m => bind m k.

(** [try: body  except Exception as e: handler e] *)
Definition try_except (body : M unit) (handler : exn → M unit) : M unit :=
  fun w =>
    match body w with
    | (inl e, w') => handler e w'
    | (inr a, w') => (inr a, w')
    end.

(** [for x in l: body x] *)
Fixpoint for_each {A : Type} (l : list A) (body : A → M unit) : M unit :=
  match l with
  | [] => ret tt
  | x :: t => body x ≫= λ _, for_each t body
  end.

(** Text mode with universal newlines: a carriage return, alone or before a
    line feed, is read as a line feed. *)
Fixpoint translate_newlines (after_cr : bool) (s : list N) : list N :=
  match s with
  | [] => []
  | c :: t =>
    if c =? 13 then 10 :: translate_newlines true t
    else if (c =? 10) && after_cr then translate_newlines false t
    else c :: translate_newlines false t
  end.

Fixpoint lines_go (cur s : list N) : list (list N) :=
  match s with
  | [] => match cur with [] => [] | _ :: _ => [rev cur] end
  | c :: t =>
    if c =? 10 then rev (c :: cur) :: lines_go [] t
    else lines_go (c :: cur) t
  end.

(** [f.readlines()]: every line keeps its line feed. *)
Definition readlines (text : list N) : list (list N) :=
  lines_go [] (translate_newlines false text).

(** [with open(file_path, 'r') as f: lines = f.readlines()] *)
Definition read_file (file_path : list N) : M (list (list N)) :=
  fun w =>
    match fs w !! file_path with
    | None => (inl FileNotFoundError, w)
    | Some node =>
      match data node with
      | None => (inl ReadError, w)
      | Some text => (inr (readlines text), w)
      end
    end.

(** [with open(file_path, 'w') as f: f.writelines(final_lines)]; opening a
    file that is not writable raises and leaves it as it is. *)
Definition write_file (file_path : list N) (final_lines : list (list N))
    : M unit :=
  fun w =>
    let written := {| data := Some (concat final_lines); writable := true |} in
    let w' := {| fs := <[file_path := written]> (fs w);
                 id_db := id_db w; log := log w |} in
    match fs w !! file_path with
    | None => (inr tt, w')
    | Some node => if writable node then (inr tt, w') else (inl PermissionError, w)
    end.

Definition get_db : M (gmap (list N) (list N)) := fun w => (inr (id_db w), w).

Definition update_db (f : gmap (list N) (list N) → gmap (list N) (list N))
    : M unit :=
  fun w => (inr tt, {| fs := fs w; id_db := f (id_db w); log := log w |}).

(** [logging.error(...)] *)
Definition log_error (p : phase) (file_path : list N) (e : exn) : M unit :=
  fun w =>
    (inr tt,
     {| fs := fs w; id_db := id_db w;
        log := log w ++ [{| log_phase := p; log_path := file_path; log_exn := e |}] |}).

Definition phase_one_file (file_path : list N) : M unit :=
  try_except
    (lines ← read_file file_path; update_db (scan_lines lines))
    (log_error Phase1 file_path).

Definition phase_one_build_db (files : list (list N)) : M unit :=
  for_each files phase_one_file.

Definition phase_two_file (file_path : list N) : M unit :=
  try_except
    (lines ← read_file file_path;
     db ← get_db;
     write_file file_path (transform_lines db lines))
    (log_error Phase2 file_path).

Definition phase_two_process_and_write (files : list (list N)) : M unit :=
  for_each files phase_two_file.

(** The two passes of [main], one after the other, from an empty database. *)
Definition migrate (files : list (list N)) : M unit :=
  phase_one_build_db files ≫= λ _, phase_two_process_and_write files.

Definition initial_world (vault : gmap (list N) file_node) : world :=
  {| fs := vault; id_db := ∅; log := [] |}.

(** The text of a file after a run, when it can be read. *)
Definition text_of (w : world) (file_path : list N) : option (list N) :=
  node ← fs w !! file_path; data node.

(** ** The alias normaliser *)

(** The values a YAML header holds, as far as the normaliser tells them
    apart.  The code tests whether the value of [aliases] is a list and
    whether an item is a [str], and it takes [str()] of the items.  A value
    that is neither a string, a list, null nor a boolean (a number, a date, a
    mapping, a set, binary data) is given by the two texts that [str()] and
    [repr()] return for it. *)
#[local] Set Warnings "-register-all".
Inductive yval : Type :=
| YStr (s : list N)
| YNull
| YBool (b : bool)
| YSeq (l : list yval)
| YOther (str_text repr_text : list N).

(** A post: [post.metadata] (a dict, in key order) and [post.content]. *)
Record post := {
  metadata : list (list N * yval);
  content : list N
}.

(** A file of the vault.  [Loaded p] is a file for which [frontmatter.load]
    returns [p].  [Dumped p] is a file that holds what the normaliser wrote
    for [p]: the header that [yaml.dump] gives for [p.metadata] between two
    fences, an empty line and [p.content].  What [frontmatter.load] returns
    for such a file is not taken to be [p]; it is given by the function
    [reload] that the definitions below take as an argument ([None] when
    loading raises).  [Unloadable] is a file that cannot be opened, decoded
    or parsed. *)
Inductive md_file : Type :=
| Unloadable
| Loaded (p : post) (can_write : bool)
| Dumped (p : post) (can_write : bool).

(** [frontmatter.load(f)], [None] when it raises. *)
Definition loaded (reload : post → option post) (f : md_file) : option post :=
  match f with
  | Unloadable => None
  | Loaded p _ => Some p
  | Dumped p _ => reload p
  end.

(** Whether [open(file_path, 'w')] succeeds. *)
Definition writable_file (f : md_file) : bool :=
  match f with
  | Unloadable => false
  | Loaded _ can_write => can_write
  | Dumped _ can_write => can_write
  end.

Fixpoint dict_get {V : Type} (k : list N) (d : list (list N * V)) : option V :=
  match d with
  | [] => None
  | (k', v) :: d' => if decide (k' = k) then Some v else dict_get k d'
  end.

Definition FW_COMMA : N := 0xFF0C.      (* fullwidth comma *)

(** The guard of the loop: a fullwidth or an ASCII comma occurs in [item]. *)
Definition has_comma (item : list N) : bool :=
  contains [FW_COMMA] item || contains [44] item.

(** The character class of the pattern given to [re.split]: the fullwidth
    comma, the vertical bar and the ASCII comma. *)
Definition split_class (c : N) : bool :=
  (c =? FW_COMMA) || (c =? 124) || (c =? 44).

(** [re.split] on a pattern that is one character class. *)
Fixpoint re_split_go (sep : N → bool) (cur s : list N) : list (list N) :=
  match s with
  | [] => [rev cur]
  | c :: t =>
    if sep c then rev cur :: re_split_go sep [] t
    else re_split_go sep (c :: cur) t
  end.

Definition re_split (sep : N → bool) (s : list N) : list (list N) :=
  re_split_go sep [] s.

(** [[alias.strip() for alias in re.split(...) if alias.strip()]] *)
Definition split_items (item : list N) : list (list N) :=
  List.filter (fun a => negb (is_empty a))
              (List.map strip (re_split split_class item)).

(** One iteration of [for item in original_aliases], on
    [(new_aliases, was_modified)]. *)
Definition alias_step (acc : list yval * bool) (item : yval) : list yval * bool :=
  match item with
  | YStr s =>
    if has_comma s then (fst acc ++ List.map YStr (split_items s), true)
    else (fst acc ++ [item], snd acc)
  | _ => (fst acc ++ [item], snd acc)
  end.

Definition split_aliases (original_aliases : list yval) : list yval * bool :=
  fold_left alias_step original_aliases ([], false).

(** [str(v)] of a header value, as far as needed: [repr] of a string is
    given for strings that need no escaping. *)
Fixpoint py_repr (v : yval) : list N :=
  match v with
  | YStr s => [39] ++ s ++ [39]
  | YNull => lit "None"
  | YBool b => if b then lit "True" else lit "False"
  | YSeq l =>
    lit "[" ++
    (fix join (l : list yval) : list N :=
       match l with
       | [] => []
       | x :: t =>
         match t with
         | [] => py_repr x
         | _ :: _ => py_repr x ++ lit ", " ++ join t
         end
       end) l ++
    lit "]"
  | YOther _ repr_text => repr_text
  end.

Definition py_str (v : yval) : list N :=
  match v with
  | YStr s => s
  | YOther str_text _ => str_text
  | _ => py_repr v
  end.

(** [DoubleQuotedScalarString(alias)] is a [str]: it holds [str(alias)]. *)
Definition DoubleQuotedScalarString (alias : yval) : yval := YStr (py_str alias).

(** How a call ends: with a returned value, or with an exception that
    leaves the function. *)
Inductive outcome : Set :=
| Returns (b : bool)
| Raises.

(** The [except] clause of [process_markdown_file]: it prints the error and
    the function goes on to [return False]; when that [print] raises, the
    exception leaves the function. *)
Definition handler (error_printed : bool) : outcome :=
  if error_printed then Returns false else Raises.

(** [process_markdown_file]: the file afterwards and how the call ends.
    [report_printed] says whether [os.path.relpath] and the [print] that
    follow the write succeed, [error_printed] whether the [print] of the
    [except] clause does.  An unwritable file raises in [open] and stays as
    it is. *)
Definition process_markdown_file (reload : post → option post)
    (report_printed error_printed : bool) (f : md_file) : md_file * outcome :=
  match loaded reload f with
  | None => (f, handler error_printed)
  | Some p =>
    match dict_get (lit "aliases") (metadata p) with
    | Some (YSeq original_aliases) =>
      let '(new_aliases, was_modified) := split_aliases original_aliases in
      if was_modified then
        if writable_file f then
          let quoted_aliases := List.map DoubleQuotedScalarString new_aliases in
          let written :=
            Dumped {| metadata := dict_set (lit "aliases") (YSeq quoted_aliases)
                                           (metadata p);
                      content := content p |} true in
          if report_printed then (written, Returns true)
          else (written, handler error_printed)
        else (f, handler error_printed)
      else (f, Returns false)
    | _ => (f, Returns false)
    end
  end.

(** The splitting the contract asks for: an item is cut at its commas, of
    either script, and nowhere else. *)
Definition is_comma (c : N) : bool := (c =? FW_COMMA) || (c =? 44).

Definition split_at_commas (item : list N) : list (list N) :=
  List.filter (fun a => negb (is_empty a))
              (List.map strip (re_split is_comma item)).

(** ** Auxiliary notions used in the statements *)

(** What a substitution does to one character.  The double-asterisk rule
    rewrites pairs and has no effect character by character. *)
Definition rule_char (r : rule) (x : N) : N :=
  match r, rule_old r, rule_new r with
  | R_dstar, _, _ => x
  | _, [c], [d] => if x =? c then d else x
  | _, _, _ => x
  end.

(** The character map of a sequence of substitutions. *)
Definition chars (order : list rule) (x : N) : N :=
  fold_left (fun y r => rule_char r y) order x.

(** A line the backward walk of the scanner passes over. *)
Definition passed_over (lines : list (list N)) (k : nat) : bool :=
  is_sidecar (strip (default [] (lines !! k))).

(** The world after an error record has been appended to the log. *)
Definition logged (p : phase) (file_path : list N) (e : exn) (w : world) : world :=
  snd (log_error p file_path e w).

(** Every value of the database is an output of the sanitiser. *)
Definition db_sanitized (db : gmap (list N) (list N)) : Prop :=
  ∀ uuid_val text, db !! uuid_val = Some text →
    ∃ final_content, text = sanitize_text_for_linking final_content.

(** An item whose text holds no comma. *)
Definition comma_free (v : yval) : Prop := has_comma (py_str v) = false.

(** An alias item that is a string. *)
Definition is_string (v : yval) : bool :=
  match v with
  | YStr _ => true
  | _ => false
  end.

(** An alias item that is a string, or whose [str()] holds no comma. *)
Definition hides_no_comma (v : yval) : bool :=
  is_string v || negb (has_comma (py_str v)).

(** No alias item of the file hides a comma (or there is no alias list). *)
Definition plain_aliases (reload : post → option post) (f : md_file) : Prop :=
  match loaded reload f with
  | None => True
  | Some p =>
    match dict_get (lit "aliases") (metadata p) with
    | Some (YSeq l) => forallb hides_no_comma l = true
    | _ => True
    end
  end.

(** What is taken of the two YAML libraries: a list of strings that was
    dumped under [aliases] (as double-quoted scalars) is the value of
    [aliases] again when the file is loaded.  Nothing is taken of the other
    keys or of the body. *)
Definition reads_back_aliases (reload : post → option post) : Prop :=
  ∀ p p' l,
    reload p = Some p' →
    dict_get (lit "aliases") (metadata p) = Some (YSeq l) →
    forallb is_string l = true →
    dict_get (lit "aliases") (metadata p') = Some (YSeq l).

(** A file that a run leaves as it is and never reports as modified. *)
Definition stable (reload : post → option post) (f : md_file) : Prop :=
  ∀ report_printed error_printed,
    fst (process_markdown_file reload report_printed error_printed f) = f
    ∧ snd (process_markdown_file reload report_printed error_printed f)
      ≠ Returns true.

(** ** Inputs of the scenarios *)

Definition ID1 : list N :=
  Eval cbv in lit "11111111-1111-1111-1111-111111111111".

Definition A_MD : list N := Eval cbv in lit "a.md".
Definition B_MD : list N := Eval cbv in lit "b.md".

Definition plain_file (text : list N) : file_node :=
  {| data := Some text; writable := true |}.

(** The defining file and the referencing file of the migration scenario. *)
Definition defining_text : list N :=
  Eval cbv in
    lit "- Some fact" ++ [10] ++ lit "id:: " ++ ID1 ++ [10] ++ lit "hl-page:: 5".

Definition referencing_text : list N :=
  Eval cbv in lit "((" ++ ID1 ++ lit "))".

Definition scenario_vault : gmap (list N) file_node :=
  <[A_MD := plain_file defining_text]> {[B_MD := plain_file referencing_text]}.

(** A vault whose only file refers to an identifier that is declared
    nowhere. *)
Definition dangling_vault : gmap (list N) file_node :=
  {[B_MD := plain_file referencing_text]}.

(** A declaration separated from its block by a blank line. *)
Definition blank_gap_lines : list (list N) :=
  Eval cbv in [lit "- fact" ++ [10]; [10]; lit "id:: " ++ ID1 ++ [10]].

(** A block with a page annotation before the declaration; both the text and
    the page value hold characters the sanitiser replaces. *)
Definition annotated_text : list N :=
  Eval cbv in
    lit "- a*b|c" ++ [10] ++ lit "hl-page:: 5/6" ++ [10] ++ lit "id:: " ++ ID1 ++ [10].

Definition annotated_vault : gmap (list N) file_node :=
  {[A_MD := plain_file annotated_text]}.

(** The header scenario. *)
Definition header_lines : list (list N) :=
  Eval cbv in
    [lit "title:: Foo" ++ [10]; lit "tags:: a, b" ++ [10]; [10]; lit "- body"].

(** A vault with an unreadable file between two ordinary ones. *)
Definition C_MD : list N := Eval cbv in lit "c.md".

Definition faulty_vault : gmap (list N) file_node :=
  <[A_MD := plain_file defining_text]>
  (<[C_MD := {| data := None; writable := true |}]>
   {[B_MD := plain_file referencing_text]}).

(** Headers for the alias normaliser. *)
Definition bar_and_comma : md_file :=
  Loaded {| metadata := [(lit "aliases", YSeq [YStr (lit "A|B,C")])];
            content := lit "body" |} true.

Definition nested_alias : md_file :=
  Loaded {| metadata :=
              [(lit "aliases",
                YSeq [YSeq [YStr (lit "x"); YStr (lit "y")]; YStr (lit "A,B")])];
            content := lit "body" |} true.

(** An alias item that is a mapping: what [- Dune: Part Two, the film]
    loads as. *)
Definition mapping_item : yval :=
  YOther (lit "{'Dune': 'Part Two, the film'}")
         (lit "{'Dune': 'Part Two, the film'}").

Definition mapping_alias : md_file :=
  Loaded {| metadata :=
              [(lit "aliases", YSeq [mapping_item; YStr (lit "A,B")])];
            content := lit "body" |} true.

(** Items that are not strings and hide no comma: a number and a boolean. *)
Definition mixed_alias : md_file :=
  Loaded {| metadata :=
              [(lit "aliases",
                YSeq [YStr [65; FW_COMMA; 66]; YOther (lit "42") (lit "42");
                      YBool true]);
               (lit "tags", YSeq [YStr (lit "t")])];
            content := lit "body" |} true.


(** ** Walking a directory tree *)

(** A directory as [os.walk] lists it: its sub-directories, by name, and its
    other entries. *)
Inductive dir : Type :=
| Dir (subdirs : list (list N * dir)) (files : list (list N)).

(** [s.endswith(suffix)] *)
Definition endswith (suffix s : list N) : bool :=
  startswith (rev suffix) (rev s).

(** [os.path.join(a, p)] with the separator [/]. *)
Definition path_join (a p : list N) : list N :=
  if startswith [47] p then p
  else if is_empty a || endswith [47] a then a ++ p
  else a ++ [47] ++ p.

(** The text that marks a backup folder. *)
Definition BACKUP_MARKER : list N :=
  Eval cbv in [76; 0x5757; 45; 79; 0x9875; 0x9762; 0x5757; 95] ++ lit "backup".

(** [find_markdown_files]: [os.walk] goes top down; the directories whose
    name holds the marker are taken out of [dirs] and so never entered. *)
Fixpoint find_markdown_files (directory : list N) (d : dir) : list (list N) :=
  match d with
  | Dir subdirs files =>
    List.map (path_join directory) (List.filter (endswith (lit ".md")) files)
    ++ (fix walk_dirs (dirs : list (list N * dir)) : list (list N) :=
          match dirs with
          | [] => []
          | (name, sub) :: rest =>
            if contains BACKUP_MARKER name then walk_dirs rest
            else find_markdown_files (path_join directory name) sub
                 ++ walk_dirs rest
          end) subdirs
  end.

(** [visits top d root d']: the walk that starts in [d] under the path [top]
    comes to the directory [d'] under the path [root], through directories
    whose names do not hold the marker. *)
Inductive visits : list N → dir → list N → dir → Prop :=
| visits_top (top : list N) (d : dir) : visits top d top d
| visits_sub (top : list N) (subdirs : list (list N * dir))
    (files : list (list N)) (name : list N) (sub : dir) (root : list N)
    (d' : dir) :
    (name, sub) ∈ subdirs →
    contains BACKUP_MARKER name = false →
    visits (path_join top name) sub root d' →
    visits top (Dir subdirs files) root d'.

(** [listed top d p]: [p] is the path of an entry that ends in [.md] in a
    directory that the walk from [d] under [top] comes to. *)
Definition listed (top : list N) (d : dir) (p : list N) : Prop :=
  ∃ root subdirs files file,
    visits top d root (Dir subdirs files) ∧ file ∈ files
    ∧ endswith (lit ".md") file = true ∧ p = path_join root file.

(** ** The batch run of the alias normaliser *)

Definition OBSIDIAN_DIR : list N := Eval cbv in lit ".obsidian".
Definition SELF_TEST_DIR : list N := Eval cbv in lit "temp_self_test_dir_for_script".

(** The files [batch_process_vault] hands to [process_markdown_file], in
    order.  In every directory [dirs.remove] takes out the first entry named
    [.obsidian] and the first one named after the self test; the two flags
    say which removals are still to come.  The normaliser creates and deletes
    nothing, so the listing can be read before the files are processed. *)
Fixpoint vault_files (root : list N) (d : dir) : list (list N) :=
  match d with
  | Dir subdirs files =>
    List.map (path_join root) (List.filter (endswith (lit ".md")) files)
    ++ (fix walk_dirs (dirs : list (list N * dir)) (obsidian self_test : bool)
          : list (list N) :=
          match dirs with
          | [] => []
          | (name, sub) :: rest =>
            if obsidian && bool_decide (name = OBSIDIAN_DIR)
            then walk_dirs rest false self_test
            else if self_test && bool_decide (name = SELF_TEST_DIR)
            then walk_dirs rest obsidian false
            else vault_files (path_join root name) sub
                 ++ walk_dirs rest obsidian self_test
          end) subdirs true true
  end.

(** What the script prints. *)
Inductive message : Type :=
| Started
| Modified (file_path : list N)
| Failed (file_path : list N)
| Summary
| Not_a_directory.

(** Whether a message can be put out; [print] raises when it cannot.  For
    [Modified] this stands for [os.path.relpath] and the [print] after
    it. *)
Definition console : Type := message → bool.

(** [process_markdown_file(file_path)] on a store of files; a missing file
    raises in [open]. *)
Definition process_path (reload : post → option post) (c : console)
    (store : gmap (list N) md_file) (file_path : list N)
    : gmap (list N) md_file * outcome :=
  match store !! file_path with
  | None => (store, handler (c (Failed file_path)))
  | Some f =>
    let r := process_markdown_file reload (c (Modified file_path))
                                   (c (Failed file_path)) f in
    (<[file_path := fst r]> store, snd r)
  end.

(** The state of a batch run: the files, [modified_files_count] and whether
    an exception has left the loop. *)
Record batch_state := {
  files_after : gmap (list N) md_file;
  modified_files_count : nat;
  raised : bool
}.

(** The loop over the files; nothing catches an exception of
    [process_markdown_file], so the first one ends the loop. *)
Definition batch_step (reload : post → option post) (c : console)
    (acc : batch_state) (file_path : list N) : batch_state :=
  if raised acc then acc
  else
    let '(store, result) := process_path reload c (files_after acc) file_path in
    match result with
    | Returns modified =>
      {| files_after := store;
         modified_files_count :=
           if modified then S (modified_files_count acc)
           else modified_files_count acc;
         raised := false |}
    | Raises =>
      {| files_after := store;
         modified_files_count := modified_files_count acc;
         raised := true |}
    end.

Definition batch_files (reload : post → option post) (c : console)
    (paths : list (list N)) (store : gmap (list N) md_file) : batch_state :=
  fold_left (batch_step reload c) paths
            {| files_after := store; modified_files_count := 0; raised := false |}.

(** The paths a batch run visits; [None] is a path that is not a
    directory. *)
Definition visited_paths (path_to_process : list N) (tree : option dir)
    : list (list N) :=
  match tree with
  | Some d => vault_files path_to_process d
  | None => []
  end.

Definition batch_process_vault (reload : post → option post) (c : console)
    (path_to_process : list N) (tree : option dir)
    (store : gmap (list N) md_file) : batch_state :=
  match tree with
  | None =>
    {| files_after := store; modified_files_count := 0;
       raised := negb (c Not_a_directory) |}
  | Some d =>
    if c Started then
      let st := batch_files reload c (vault_files path_to_process d) store in
      {| files_after := files_after st;
         modified_files_count := modified_files_count st;
         raised := raised st || negb (c Summary) |}
    else {| files_after := store; modified_files_count := 0; raised := true |}
  end.

(** A console on which every message can be printed. *)
Definition quiet : console := fun _ => true.

(** An alias item that the loop splits: a string with a comma in it. *)
Definition needs_split (v : yval) : bool :=
  match v with
  | YStr s => has_comma s
  | _ => false
  end.

(** ** Invariants of the header converter *)

(** The state in which the loop of the header converter starts. *)
Definition initial_header_state : header_state :=
  {| properties := []; property_lines_count := 0;
     in_properties_block := false |}.

(** What the [properties] dict always satisfies: the keys are distinct (it
    is a dict), none is empty or [alias], and no value is empty or holds a
    comma. *)
Definition well_formed_properties (props : list (list N * list (list N)))
    : Prop :=
  NoDup (List.map fst props)
  ∧ Forall (fun kv =>
              fst kv ≠ [] ∧ fst kv ≠ lit "alias"
              ∧ Forall (fun v => v ≠ [] ∧ 44 ∉ v) (snd kv)) props.

(** What holds of the state of the loop before line [i]. *)
Definition header_invariant (i : nat) (st : header_state) : Prop :=
  (property_lines_count st ≤ i)%nat
  ∧ (properties st ≠ [] → 1 ≤ property_lines_count st)%nat
  ∧ well_formed_properties (properties st).

(** ** Where the entries of the database come from *)

(** A line of a readable file among [files] declares the identifier [u]. *)
Definition declared_in (w : world) (files : list (list N)) (u : list N) : Prop :=
  ∃ file_path text line,
    file_path ∈ files ∧ text_of w file_path = Some text
    ∧ line ∈ readlines text ∧ UUID_PATTERN_search line = Some u.

(** ** Closed forms of the rewriter loop *)

(** The identifier that the line after [i] declares, when the database knows
    it, with its text. *)
Definition resolved_declaration (db : gmap (list N) (list N))
    (lines : list (list N)) (i : nat) : option (list N) :=
  next_line ← lines !! S i;
  uuid_val ← UUID_PATTERN_search next_line;
  db !! uuid_val.

(** Line [i] as the loop leaves it. *)
Definition rewritten_line (db : gmap (list N) (list N))
    (lines : list (list N)) (i : nat) (line : list N) : list N :=
  let line := BLOCK_REF_PATTERN_sub (render_ref db) line in
  match resolved_declaration db lines i with
  | Some text =>
    default [] (prefix_match line) ++ lit "[[" ++ text ++ lit "]]" ++ [10]
  | None => line
  end.

(** The state of the loop of [phase_two_process_and_write] after its last
    iteration: [(lines_to_process, lines_to_delete)]. *)
Definition rewrite_loop (db : gmap (list N) (list N))
    (new_lines : list (list N)) : list (list N) * gset nat :=
  fold_left (rewrite_step db) (seq 0 (length new_lines)) (new_lines, ∅).

(** Line [j] is deleted on account of line [i]: the line after [i] declares
    an identifier of the database, and [j] is that line or a line after it
    that only sidecar lines separate from it. *)
Definition deleted_after (db : gmap (list N) (list N)) (lines : list (list N))
    (i j : nat) : Prop :=
  is_Some (resolved_declaration db lines i) ∧ (i < j)%nat
  ∧ ∀ k, (S (S i) ≤ k ≤ j)%nat →
         ∃ l, lines !! k = Some l ∧ is_sidecar (strip l) = true.

(** A reference token. *)
Definition token (uuid_val : list N) : list N :=
  lit "((" ++ uuid_val ++ lit "))".

(** A well-formed identifier: 36 characters of the class of the patterns. *)
Definition is_identifier (u : list N) : Prop :=
  length u = 36%nat ∧ forallb uuid_char u = true.

(** A database with one entry. *)
Definition sample_db : gmap (list N) (list N) :=
  {[ID1 := lit "Some fact"]}.

(** Inputs of the examples for the walk. *)
Definition sample_tree : dir :=
  Dir [(lit "pages", Dir [] [lit "a.md"; lit "notes.txt"]);
       (BACKUP_MARKER ++ lit "_20240101", Dir [] [lit "a.md"]);
       (lit ".obsidian", Dir [] [lit "x.md"])]
      [lit "index.md"].

(** * Properties *)

(** ** Substitutions, character by character *)

Lemma replace_single (c d : N) (s : list N) :
  replace [c] [d] s = List.map (fun x => if x =? c then d else x) s.
Proof.
  unfold replace. induction s as [|x t IH]; [reflexivity|].
  cbn [replace_go startswith List.map length Nat.pred].
  rewrite N.eqb_sym, andb_true_r.
  destruct (x =? c); cbn; now rewrite IH.
Qed.

Lemma apply_rule_chars (r : rule) (s : list N) :
  r ≠ R_dstar → apply_rule r s = List.map (rule_char r) s.
Proof.
  intros Hr. destruct r; try congruence; apply replace_single.
Qed.

Lemma chars_app (q1 q2 : list rule) (x : N) :
  chars (q1 ++ q2) x = chars q2 (chars q1 x).
Proof. unfold chars. apply fold_left_app. Qed.

Lemma apply_rules_app (q1 q2 : list rule) (s : list N) :
  apply_rules (q1 ++ q2) s = apply_rules q2 (apply_rules q1 s).
Proof. unfold apply_rules. apply fold_left_app. Qed.

(** Without the double-asterisk rule a sequence of substitutions is a
    character map. *)
Lemma apply_rules_chars (q : list rule) (s : list N) :
  R_dstar ∉ q → apply_rules q s = List.map (chars q) s.
Proof.
  revert s. induction q as [|r q IH]; intros s Hq.
  - cbn. now rewrite List.map_id.
  - apply not_elem_of_cons in Hq as [Hr Hq].
    change (apply_rules (r :: q) s) with (apply_rules q (apply_rule r s)).
    rewrite IH by assumption. rewrite apply_rule_chars by congruence.
    rewrite List.map_map. reflexivity.
Qed.

(** A rule that moves a character sends it to a character no rule moves. *)
Lemma rule_char_target_fixed (r r' : rule) (x : N) :
  rule_char r x ≠ x → rule_char r' (rule_char r x) = rule_char r x.
Proof.
  destruct r; cbn; intros H; try congruence;
    match type of H with context [x =? ?c] => destruct (x =? c) end;
    try congruence; destruct r'; reflexivity.
Qed.

(** Two rules that move the same character send it to the same place. *)
Lemma rule_char_agree (r r' : rule) (x : N) :
  rule_char r x ≠ x → rule_char r' x ≠ x → rule_char r x = rule_char r' x.
Proof.
  destruct r; cbn; intros H; try congruence;
    match type of H with context [x =? ?c] => destruct (N.eqb_spec x c) as [E|E] end;
    try congruence; clear H; subst x; destruct r'; cbn; congruence.
Qed.

Lemma chars_fixed (q : list rule) (y : N) :
  (∀ r, r ∈ q → rule_char r y = y) → chars q y = y.
Proof.
  induction q as [|r q IH]; intros H; [reflexivity|].
  change (chars (r :: q) y) with (chars q (rule_char r y)).
  rewrite (H r) by left. apply IH. intros r' Hr'. apply H. now right.
Qed.

(** Either no rule of the sequence moves [x], or the result is what one of
    its rules makes of [x]. *)
Lemma chars_cases (q : list rule) (x : N) :
  (chars q x = x ∧ ∀ r, r ∈ q → rule_char r x = x)
  ∨ (∃ r, r ∈ q ∧ rule_char r x ≠ x ∧ chars q x = rule_char r x).
Proof.
  induction q as [|r q IH].
  - left. split; [reflexivity|]. intros r Hr. inversion Hr.
  - change (chars (r :: q) x) with (chars q (rule_char r x)).
    destruct (decide (rule_char r x = x)) as [E|E].
    + rewrite E. destruct IH as [[H1 H2]|(r0 & Hin & Hne & H)].
      * left. split; [assumption|]. intros r' Hr'.
        apply elem_of_cons in Hr' as [->|Hr']; auto.
      * right. exists r0. split; [now right|]. now split.
    + right. exists r. split; [left|]. split; [assumption|].
      apply chars_fixed. intros r' _. now apply rule_char_target_fixed.
Qed.

(** The character map depends on the set of rules only. *)
Lemma chars_same_rules (p q : list rule) (x : N) :
  (∀ r, r ∈ p ↔ r ∈ q) → chars p x = chars q x.
Proof.
  intros Hpq.
  destruct (chars_cases p x) as [[Hp Hp']|(r & Hr & Hne & Hp)];
    destruct (chars_cases q x) as [[Hq Hq']|(r' & Hr' & Hne' & Hq)].
  - congruence.
  - exfalso. apply Hne'. apply Hp'. now apply Hpq.
  - exfalso. apply Hne. apply Hq'. now apply Hpq.
  - rewrite Hp, Hq. now apply rule_char_agree.
Qed.

(** ** The double-asterisk rule and character maps *)

Lemma startswith_dstar_map (f : N → N) (s : list N) :
  (∀ x, (f x =? 42) = (x =? 42)) →
  startswith [42; 42] (List.map f s) = startswith [42; 42] s.
Proof.
  intros Hf. destruct s as [|a [|b t]]; cbn [startswith List.map];
    rewrite ?(N.eqb_sym 42), ?Hf; reflexivity.
Qed.

Lemma dstar_go_map (f : N → N) (k : nat) (s : list N) :
  (∀ x, (f x =? 42) = (x =? 42)) → f STAR = STAR →
  replace_go [42; 42] [STAR] k (List.map f s)
  = List.map f (replace_go [42; 42] [STAR] k s).
Proof.
  intros Hf Hstar. revert k. induction s as [|a t IH]; intros k; [reflexivity|].
  destruct k as [|k].
  - change (List.map f (a :: t)) with (f a :: List.map f t).
    cbn [replace_go].
    change (f a :: List.map f t) with (List.map f (a :: t)).
    rewrite startswith_dstar_map by assumption.
    destruct (startswith [42; 42] (a :: t)); cbn [length Nat.pred app List.map];
      rewrite IH; [rewrite Hstar|]; reflexivity.
  - cbn. apply IH.
Qed.

Lemma chars_keeps_asterisk (q : list rule) (x : N) :
  R_star ∉ q → (chars q x =? 42) = (x =? 42).
Proof.
  revert x. induction q as [|r q IH]; intros x Hq; [reflexivity|].
  apply not_elem_of_cons in Hq as [Hr Hq].
  change (chars (r :: q) x) with (chars q (rule_char r x)).
  rewrite IH by assumption.
  destruct r; cbn; try congruence;
    match goal with |- context [x =? ?c] => destruct (N.eqb_spec x c) as [E|E] end;
    try subst x; try reflexivity.
Qed.

Lemma chars_star (q : list rule) : chars q STAR = STAR.
Proof. apply chars_fixed. intros r _. destruct r; reflexivity. Qed.

(** ** The shape of the result *)

Lemma rule_eqb_spec (a b : rule) : rule_eqb a b = true ↔ a = b.
Proof. split; [destruct a, b; done | intros ->; destruct b; done]. Qed.

Lemma precedes_split (a b : rule) (p : list rule) :
  precedes a b p = true →
  ∃ q1 q2, p = q1 ++ (a :: q2) ∧ (a ∉ q1) ∧ (b ∉ q1).
Proof.
  induction p as [|r q IH]; cbn; [discriminate|].
  destruct (rule_eqb r a) eqn:Ea.
  - intros _. apply rule_eqb_spec in Ea. subst r. exists [], q.
    repeat split; apply not_elem_of_nil.
  - destruct (rule_eqb r b) eqn:Eb; [discriminate|].
    intros H. destruct (IH H) as (q1 & q2 & Hq & Ha & Hb). subst q.
    exists (r :: q1), q2. split; [reflexivity|].
    split; apply not_elem_of_cons; (split; [|assumption]); intros E; subst r.
    + assert (rule_eqb a a = true) by now apply rule_eqb_spec. congruence.
    + assert (rule_eqb b b = true) by now apply rule_eqb_spec. congruence.
Qed.

(** A sequence without repetition in which the double-asterisk rule comes
    before the single-asterisk rule first rewrites the pairs of the input and
    then maps its characters. *)
Lemma apply_rules_shape (p : list rule) (s : list N) :
  NoDup p → precedes R_dstar R_star p = true →
  apply_rules p s = List.map (chars p) (apply_rule R_dstar s).
Proof.
  intros Hnd Hp.
  destruct (precedes_split _ _ _ Hp) as (q1 & q2 & -> & Hd1 & Hs1).
  apply NoDup_app in Hnd as (_ & Hdisj & Hnd2).
  apply NoDup_cons in Hnd2 as [Hd2 _].
  rewrite apply_rules_app.
  change (apply_rules (R_dstar :: q2) ?t) with (apply_rules q2 (apply_rule R_dstar t)).
  rewrite (apply_rules_chars q1) by assumption.
  unfold apply_rule at 1. cbn [rule_old rule_new]. unfold replace.
  rewrite dstar_go_map;
    [| intros x; now apply chars_keeps_asterisk | apply chars_star].
  rewrite apply_rules_chars by assumption.
  rewrite List.map_map. apply List.map_ext. intros x.
  rewrite chars_app. reflexivity.
Qed.

Lemma source_order_NoDup : NoDup source_order.
Proof.
  unfold source_order.
  repeat (apply NoDup_cons; split;
          [intros H; repeat (apply elem_of_cons in H as [H|H]; [discriminate|]);
           inversion H|]).
  apply NoDup_nil_2.
Qed.

Lemma sanitize_as_rules (text : list N) :
  sanitize_text_for_linking text = apply_rules source_order text.
Proof. reflexivity. Qed.

Lemma sanitize_shape (text : list N) :
  sanitize_text_for_linking text
  = List.map (chars source_order) (apply_rule R_dstar text).
Proof.
  rewrite sanitize_as_rules. apply apply_rules_shape; [|reflexivity].
  apply source_order_NoDup.
Qed.

Lemma chars_source_order_clean (x : N) : forbidden (chars source_order x) = false.
Proof.
  destruct (forbidden x) eqn:E.
  - unfold forbidden in E.
    repeat (apply orb_true_iff in E as [E|E]);
      apply N.eqb_eq in E; subst x; reflexivity.
  - rewrite chars_fixed; [assumption|].
    intros r _. unfold forbidden in E.
    repeat (apply orb_false_iff in E as [E ?]).
    destruct r; cbn; try reflexivity;
      match goal with H : (x =? ?c) = false |- context [x =? ?c] => now rewrite H end.
Qed.

Lemma sanitize_clean (text : list N) :
  Forall (fun c => forbidden c = false) (sanitize_text_for_linking text).
Proof.
  rewrite sanitize_shape. apply Forall_forall. intros c Hc.
  apply list_elem_of_In, in_map_iff in Hc as (x & <- & _).
  apply chars_source_order_clean.
Qed.

(** ** Running the two passes *)

Lemma for_each_app {A : Type} (l1 l2 : list A) (body : A → M unit) (w : world) :
  for_each (l1 ++ l2) body w =
  match for_each l1 body w with
  | (inl e, w') => (inl e, w')
  | (inr _, w') => for_each l2 body w'
  end.
Proof.
  revert w. induction l1 as [|x l1 IH]; intros w; [reflexivity|].
  cbn [for_each app]. unfold mbind, M_bind, bind.
  destruct (body x w) as [[e|[]] w']; [reflexivity|]. apply IH.
Qed.

(** A loop whose body catches everything runs to its end. *)
Lemma for_each_total {A : Type} (l : list A) (body : A → M unit) (w : world) :
  (∀ x w', fst (body x w') = inr tt) → fst (for_each l body w) = inr tt.
Proof.
  intros Hbody. revert w. induction l as [|x l IH]; intros w; [reflexivity|].
  cbn [for_each]. unfold mbind, M_bind, bind.
  specialize (Hbody x w). destruct (body x w) as [[e|[]] w']; [discriminate|].
  apply IH.
Qed.

(** What the scanner does with one file. *)
Lemma phase_one_file_run (file_path : list N) (w : world) :
  phase_one_file file_path w =
  (inr tt,
   match fs w !! file_path with
   | None => logged Phase1 file_path FileNotFoundError w
   | Some node =>
     match data node with
     | None => logged Phase1 file_path ReadError w
     | Some text =>
       {| fs := fs w; id_db := scan_lines (readlines text) (id_db w); log := log w |}
     end
   end).
Proof.
  unfold phase_one_file, try_except, mbind, M_bind, bind, read_file.
  destruct (fs w !! file_path) as [node|]; [|reflexivity].
  destruct (data node); reflexivity.
Qed.

(** What the rewriter does with one file. *)
Lemma phase_two_file_run (file_path : list N) (w : world) :
  phase_two_file file_path w =
  (inr tt,
   match fs w !! file_path with
   | None => logged Phase2 file_path FileNotFoundError w
   | Some node =>
     match data node with
     | None => logged Phase2 file_path ReadError w
     | Some text =>
       if writable node then
         {| fs := <[file_path :=
                      {| data := Some (concat (transform_lines (id_db w) (readlines text)));
                         writable := true |}]> (fs w);
            id_db := id_db w; log := log w |}
       else logged Phase2 file_path PermissionError w
     end
   end).
Proof.
  unfold phase_two_file, try_except, mbind, M_bind, bind, read_file, get_db,
    write_file.
  destruct (fs w !! file_path) as [node|] eqn:E; [|reflexivity].
  destruct (data node); [|reflexivity].
  cbn. rewrite E. destruct (writable node); reflexivity.
Qed.

Lemma text_of_None (w : world) (file_path : list N) :
  text_of w file_path = None ↔
  fs w !! file_path = None
  ∨ ∃ node, fs w !! file_path = Some node ∧ data node = None.
Proof.
  unfold text_of. destruct (fs w !! file_path) as [node|]; cbn.
  - split; [intros H; right; eauto | intros [H|(n & H & Hn)]; congruence].
  - split; [now left | reflexivity].
Qed.

(** A file that cannot be read: the scanner logs it and changes nothing
    else. *)
Lemma phase_one_file_unreadable (file_path : list N) (w : world) :
  text_of w file_path = None →
  ∃ e, phase_one_file file_path w = (inr tt, logged Phase1 file_path e w).
Proof.
  intros H. rewrite phase_one_file_run.
  apply text_of_None in H as [H|(node & H & Hn)]; rewrite H; [eauto|].
  rewrite Hn. eauto.
Qed.

Lemma phase_two_file_unreadable (file_path : list N) (w : world) :
  text_of w file_path = None →
  ∃ e, phase_two_file file_path w = (inr tt, logged Phase2 file_path e w).
Proof.
  intros H. rewrite phase_two_file_run.
  apply text_of_None in H as [H|(node & H & Hn)]; rewrite H; [eauto|].
  rewrite Hn. eauto.
Qed.

(** A file that cannot be opened for writing: the rewriter logs it and leaves
    it as it is. *)
Lemma phase_two_file_unwritable (file_path text : list N) (w : world) :
  fs w !! file_path = Some {| data := Some text; writable := false |} →
  phase_two_file file_path w
  = (inr tt, logged Phase2 file_path PermissionError w).
Proof. intros H. rewrite phase_two_file_run, H. reflexivity. Qed.

(** The rewriter never touches a file it cannot read, whichever file it is
    working on. *)
Lemma phase_two_file_keeps (file_path bad : list N) (w : world) :
  text_of w bad = None →
  fs (snd (phase_two_file file_path w)) !! bad = fs w !! bad.
Proof.
  intros Hbad. rewrite phase_two_file_run. cbn [snd].
  destruct (fs w !! file_path) as [node|] eqn:E; [|reflexivity].
  destruct (data node) as [text|] eqn:Ed; [|reflexivity].
  destruct (writable node); [|reflexivity].
  cbn [fs]. apply lookup_insert_ne. intros ->.
  unfold text_of in Hbad. rewrite E in Hbad. cbn in Hbad. congruence.
Qed.

Lemma phase_two_keeps (files : list (list N)) (bad : list N) (w : world) :
  text_of w bad = None →
  fs (snd (phase_two_process_and_write files w)) !! bad = fs w !! bad.
Proof.
  unfold phase_two_process_and_write.
  revert w. induction files as [|p files IH]; intros w Hbad; [reflexivity|].
  cbn [for_each]. unfold mbind, M_bind, bind.
  pose proof (phase_two_file_keeps p bad w Hbad) as Hk.
  destruct (phase_two_file p w) as [[e|[]] w'] eqn:E; cbn [snd] in *.
  - rewrite phase_two_file_run in E. discriminate.
  - rewrite IH; [assumption|]. unfold text_of in *. now rewrite Hk.
Qed.

Lemma phase_one_total (files : list (list N)) (w : world) :
  fst (phase_one_build_db files w) = inr tt.
Proof.
  apply for_each_total. intros p w'. now rewrite phase_one_file_run.
Qed.

Lemma phase_two_total (files : list (list N)) (w : world) :
  fst (phase_two_process_and_write files w) = inr tt.
Proof.
  apply for_each_total. intros p w'. now rewrite phase_two_file_run.
Qed.

(** The loop goes on after a file that raised. *)
Lemma for_each_after {A : Type} (before after : list A) (x : A)
    (body : A → M unit) (w wx : world) :
  (∀ y w', fst (body y w') = inr tt) →
  body x (snd (for_each before body w)) = (inr tt, wx) →
  for_each (before ++ x :: after) body w = for_each after body wx.
Proof.
  intros Hbody Hx. rewrite for_each_app.
  pose proof (for_each_total before body w Hbody) as Ht.
  destruct (for_each before body w) as [[e|[]] w']; [discriminate|].
  cbn [snd] in Hx. cbn [for_each]. unfold mbind, M_bind, bind. now rewrite Hx.
Qed.

Lemma phase_one_fs (files : list (list N)) (w : world) :
  fs (snd (phase_one_build_db files w)) = fs w.
Proof.
  unfold phase_one_build_db.
  revert w. induction files as [|p files IH]; intros w; [reflexivity|].
  cbn [for_each]. unfold mbind, M_bind, bind. rewrite phase_one_file_run.
  rewrite IH. destruct (fs w !! p) as [node|]; [|reflexivity].
  destruct (data node); reflexivity.
Qed.

(** ** The scanner *)

Lemma block_text_sanitized (lines : list (list N)) (i : nat) (text : list N) :
  block_text lines i = Some text →
  ∃ final_content, text = sanitize_text_for_linking final_content.
Proof.
  unfold block_text. destruct (backward_walk lines i None) as [page_num [idx|]];
    [|discriminate].
  destruct (BLOCK_REF_PATTERN_fullmatch _); [discriminate|].
  intros [= <-]. eauto.
Qed.

Lemma scan_line_sanitized (lines : list (list N)) (i : nat) (line : list N)
    (db : gmap (list N) (list N)) :
  db_sanitized db → db_sanitized (scan_line lines i line db).
Proof.
  intros Hdb. unfold scan_line.
  destruct (UUID_PATTERN_search line) as [u|]; [|assumption].
  destruct (block_text lines i) as [t|] eqn:E; [|assumption].
  intros k v. rewrite lookup_insert. case_decide.
  - intros [= <-]. now apply block_text_sanitized in E.
  - apply Hdb.
Qed.

Lemma scan_from_sanitized (lines rest : list (list N)) (i : nat)
    (db : gmap (list N) (list N)) :
  db_sanitized db → db_sanitized (scan_from lines i rest db).
Proof.
  revert i db. induction rest as [|line rest IH]; intros i db Hdb; [assumption|].
  cbn [scan_from]. apply IH. now apply scan_line_sanitized.
Qed.

Lemma phase_one_sanitized (files : list (list N)) (w : world) :
  db_sanitized (id_db w) →
  db_sanitized (id_db (snd (phase_one_build_db files w))).
Proof.
  unfold phase_one_build_db.
  revert w. induction files as [|p files IH]; intros w Hw; [assumption|].
  cbn [for_each]. unfold mbind, M_bind, bind. rewrite phase_one_file_run.
  apply IH. destruct (fs w !! p) as [node|]; [|assumption].
  destruct (data node); [|assumption].
  cbn [id_db]. now apply scan_from_sanitized.
Qed.

(** The backward walk stops at the nearest line that is not an annotation. *)
Lemma backward_walk_stops (lines : list (list N)) (j1 : nat)
    (page_num : option (list N)) :
  match snd (backward_walk lines j1 page_num) with
  | Some j =>
    (j < j1)%nat ∧ passed_over lines j = false
    ∧ ∀ k, (j < k < j1)%nat → passed_over lines k = true
  | None => ∀ k, (k < j1)%nat → passed_over lines k = true
  end.
Proof.
  revert page_num. induction j1 as [|j IH]; intros page_num.
  - cbn. intros k Hk. lia.
  - cbn [backward_walk].
    assert (Hstep : ∀ pn,
      passed_over lines j = true →
      match snd (backward_walk lines j pn) with
      | Some j0 =>
        (j0 < S j)%nat ∧ passed_over lines j0 = false
        ∧ ∀ k, (j0 < k < S j)%nat → passed_over lines k = true
      | None => ∀ k, (k < S j)%nat → passed_over lines k = true
      end).
    { intros pn Hj. specialize (IH pn).
      destruct (snd (backward_walk lines j pn)) as [j0|].
      - destruct IH as (H1 & H2 & H3). repeat split; [lia|assumption|].
        intros k Hk. destruct (decide (k = j)) as [->|]; [assumption|].
        apply H3. lia.
      - intros k Hk. destruct (decide (k = j)) as [->|]; [assumption|].
        apply IH. lia. }
    unfold passed_over, is_sidecar in *.
    destruct (startswith (lit "hl-page::") _) eqn:E1.
    + apply Hstep. now rewrite orb_true_r.
    + destruct (startswith (lit "ls-type::") _) eqn:E2.
      * apply Hstep. reflexivity.
      * destruct (startswith (lit "hl-color::") _) eqn:E3.
        -- apply Hstep. reflexivity.
        -- cbn [snd orb]. rewrite E1, E2, E3. repeat split; [lia|].
           intros k Hk. lia.
Qed.

Lemma block_text_no_content (lines : list (list N)) (i : nat) :
  snd (backward_walk lines i None) = None → block_text lines i = None.
Proof.
  unfold block_text. destruct (backward_walk lines i None) as [pn [idx|]];
    cbn; [discriminate|reflexivity].
Qed.

(** Literals are computed before a proof looks at them. *)
Ltac eval_lit :=
  repeat match goal with
         | |- context [lit ?s] =>
           let l := eval vm_compute in (lit s) in change (lit s) with l
         end.

Lemma startswith_app (p s : list N) :
  startswith p s = true → ∃ rest, s = p ++ rest.
Proof.
  revert s. induction p as [|a p IH]; intros s H; [now exists s|].
  destruct s as [|b s]; [discriminate|]. cbn in H.
  apply andb_true_iff in H as [Hab H]. apply N.eqb_eq in Hab as ->.
  destruct (IH s H) as [rest ->]. now exists rest.
Qed.

Lemma split_go_cons (sep : list N) (k : nat) (cur s : list N) :
  ∃ x l, split_go sep k cur s = x :: l.
Proof.
  revert k cur. induction s as [|c t IH]; intros k cur; [cbn; eauto|].
  cbn [split_go]. destruct k; [|apply IH].
  destruct (startswith sep (c :: t)); [eauto|apply IH].
Qed.

(** [split('::')[1]] of an [hl-page::] line is always there: the walk never
    raises. *)
Lemma hl_page_has_value (prev_line : list N) :
  startswith (lit "hl-page::") prev_line = true →
  is_Some (split (lit "::") prev_line !! 1%nat).
Proof.
  intros H. apply startswith_app in H as [rest ->].
  unfold split. eval_lit. cbn.
  destruct (split_go_cons [58; 58] 0 [] rest) as (x & l & E).
  destruct rest as [|c rest]; [cbn; eauto|].
  cbn in E |- *. rewrite E. cbn. eauto.
Qed.

(** ** The header converter *)

Lemma header_step_first (lines : list (list N)) (line : list N)
    (st : header_state) :
  has_property_syntax (strip line) = false → in_properties_block st = false →
  header_step lines 0 line st = Return_unchanged.
Proof.
  intros H Hst. unfold header_step. rewrite H, Hst, andb_false_r. reflexivity.
Qed.

(** ** The alias normaliser *)

Lemma contains_single (c : N) (s : list N) : contains [c] s = true ↔ c ∈ s.
Proof.
  induction s as [|x t IH]; cbn.
  - split; [discriminate | intros H; inversion H].
  - rewrite andb_true_r, orb_true_iff, IH, elem_of_cons, N.eqb_eq. tauto.
Qed.

Lemma has_comma_false (s : list N) :
  has_comma s = false ↔ ∀ c, c ∈ s → is_comma c = false.
Proof.
  unfold has_comma, is_comma. rewrite orb_false_iff. split.
  - intros [H1 H2] c Hc. apply orb_false_iff. split; apply N.eqb_neq; intros ->.
    + apply contains_single in Hc. congruence.
    + apply contains_single in Hc. congruence.
  - intros H. split; apply not_true_is_false; intros Hc;
      apply contains_single in Hc; apply H in Hc; discriminate.
Qed.

Lemma elem_of_rev (s : list N) (c : N) : c ∈ rev s ↔ c ∈ s.
Proof. rewrite !list_elem_of_In. symmetry. apply in_rev. Qed.

Lemma lstrip_elem (s : list N) (c : N) : c ∈ lstrip s → c ∈ s.
Proof.
  induction s as [|x t IH]; cbn; [auto|].
  destruct (is_space x); [intros H; right; auto | auto].
Qed.

Lemma strip_elem (s : list N) (c : N) : c ∈ strip s → c ∈ s.
Proof.
  unfold strip, rstrip. intros H.
  apply (proj1 (elem_of_rev _ _)), lstrip_elem in H.
  apply (proj1 (elem_of_rev _ _)) in H. now apply lstrip_elem.
Qed.

(** The pieces [re.split] returns hold no separator. *)
Lemma re_split_go_pieces (sep : N → bool) (cur s piece : list N) (c : N) :
  (∀ x, x ∈ cur → sep x = false) →
  piece ∈ re_split_go sep cur s → c ∈ piece → sep c = false.
Proof.
  revert cur. induction s as [|x t IH]; intros cur Hcur; cbn [re_split_go].
  - intros ->%list_elem_of_singleton Hc. apply Hcur.
    now apply (proj1 (elem_of_rev _ _)).
  - destruct (sep x) eqn:E.
    + intros [->|H]%elem_of_cons Hc.
      * apply Hcur. now apply (proj1 (elem_of_rev _ _)).
      * eapply (IH []); eauto. intros y Hy. inversion Hy.
    + apply IH. intros y [->|Hy]%elem_of_cons; auto.
Qed.

Lemma split_items_no_comma (item piece : list N) :
  piece ∈ split_items item → has_comma piece = false.
Proof.
  unfold split_items. intros H.
  apply list_elem_of_In, filter_In in H as [H _].
  apply in_map_iff in H as (raw & <- & Hraw). apply list_elem_of_In in Hraw.
  apply has_comma_false. intros c Hc%strip_elem.
  assert (split_class c = false) as Hs.
  { eapply re_split_go_pieces; [|exact Hraw|exact Hc]. intros y Hy. inversion Hy. }
  unfold split_class in Hs. unfold is_comma.
  apply orb_false_iff in Hs as [Hs H44]. apply orb_false_iff in Hs as [Hfw _].
  now rewrite Hfw, H44.
Qed.

Lemma alias_step_comma_free (acc : list yval * bool) (item : yval) :
  Forall comma_free (fst acc) → hides_no_comma item = true →
  Forall comma_free (fst (alias_step acc item)).
Proof.
  intros Hacc Hitem. unfold alias_step.
  assert (Hother : is_string item = false →
                   Forall comma_free (fst acc ++ [item])).
  { intros Hs. apply Forall_app. split; [assumption|]. repeat constructor.
    unfold hides_no_comma in Hitem. rewrite Hs in Hitem. cbn in Hitem.
    unfold comma_free. now apply negb_true_iff in Hitem. }
  destruct item as [s| |b|l|st rp]; cbn [fst]; try (now apply Hother).
  destruct (has_comma s) eqn:E; cbn [fst]; apply Forall_app; split;
    try assumption.
  - apply Forall_forall. intros v Hv.
    apply list_elem_of_In, in_map_iff in Hv as (piece & <- & Hp).
    apply list_elem_of_In in Hp. now apply split_items_no_comma in Hp.
  - repeat constructor. exact E.
Qed.

Lemma split_aliases_comma_free (l : list yval) (acc : list yval * bool) :
  Forall comma_free (fst acc) → forallb hides_no_comma l = true →
  Forall comma_free (fst (fold_left alias_step l acc)).
Proof.
  revert acc. induction l as [|item l IH]; intros acc Hacc Hl; [assumption|].
  cbn [forallb] in Hl. apply andb_true_iff in Hl as [Hitem Hl].
  cbn [fold_left]. apply IH; [|assumption]. now apply alias_step_comma_free.
Qed.

(** A list of comma-free strings is left alone. *)
Lemma split_aliases_unchanged (l : list yval) (acc : list yval * bool) :
  Forall comma_free l →
  fold_left alias_step (List.map DoubleQuotedScalarString l) acc
  = (fst acc ++ List.map DoubleQuotedScalarString l, snd acc).
Proof.
  revert acc. induction l as [|v l IH]; intros acc Hl.
  - cbn. rewrite app_nil_r. now destruct acc.
  - apply Forall_cons in Hl as [Hv Hl]. cbn [List.map fold_left].
    rewrite IH by assumption. unfold comma_free in Hv.
    unfold alias_step, DoubleQuotedScalarString.
    rewrite Hv. cbn [fst snd]. rewrite <- app_assoc. reflexivity.
Qed.

Lemma dict_get_set {V : Type} (k : list N) (v : V) (d : list (list N * V)) :
  dict_get k (dict_set k v d) = Some v.
Proof.
  induction d as [|[k' v'] d IH]; cbn.
  - now rewrite decide_True.
  - destruct (decide (k' = k)) as [->|Hne]; cbn.
    + now rewrite decide_True.
    + now rewrite decide_False.
Qed.

(** A file in which no alias has to be split is not written. *)
Lemma process_unmodified (reload : post → option post)
    (report_printed error_printed : bool) (f : md_file) (p : post)
    (l : list yval) :
  loaded reload f = Some p →
  dict_get (lit "aliases") (metadata p) = Some (YSeq l) →
  snd (split_aliases l) = false →
  process_markdown_file reload report_printed error_printed f
  = (f, Returns false).
Proof.
  intros Hl Hget Hsnd. unfold process_markdown_file. rewrite Hl, Hget.
  destruct (split_aliases l) as [new_aliases was_modified].
  cbn in Hsnd. now subst.
Qed.

Lemma handler_not_true (error_printed : bool) :
  handler error_printed ≠ Returns true.
Proof. now destruct error_printed. Qed.

Lemma quoted_are_strings (l : list yval) :
  forallb is_string (List.map DoubleQuotedScalarString l) = true.
Proof. induction l as [|v l IH]; [reflexivity|exact IH]. Qed.

(** A run either leaves the file alone, whatever can be printed, or writes
    it, and what it writes does not depend on what can be printed. *)
Lemma process_cases (reload : post → option post) (f : md_file) :
  stable reload f
  ∨ ∃ p l new_aliases,
      loaded reload f = Some p
      ∧ dict_get (lit "aliases") (metadata p) = Some (YSeq l)
      ∧ split_aliases l = (new_aliases, true)
      ∧ writable_file f = true
      ∧ ∀ report_printed error_printed,
          process_markdown_file reload report_printed error_printed f
          = (Dumped {| metadata :=
                         dict_set (lit "aliases")
                           (YSeq (List.map DoubleQuotedScalarString new_aliases))
                           (metadata p);
                       content := content p |} true,
             if report_printed then Returns true else handler error_printed).
Proof.
  unfold stable, process_markdown_file.
  destruct (loaded reload f) as [p|] eqn:Hl;
    [|left; intros r e; split; [reflexivity|apply handler_not_true]].
  destruct (dict_get (lit "aliases") (metadata p)) as [[s| |b|l|st rp]|] eqn:Hget;
    try (left; intros r e; split; [reflexivity|discriminate]).
  destruct (split_aliases l) as [new_aliases [|]] eqn:Hsplit;
    [|left; intros r e; split; [reflexivity|discriminate]].
  destruct (writable_file f) eqn:Hw;
    [|left; intros r e; split; [reflexivity|apply handler_not_true]].
  right. exists p, l, new_aliases.
  split; [reflexivity|]. split; [exact Hget|]. split; [exact Hsplit|].
  split; [reflexivity|]. intros r e. now destruct r.
Qed.

(** After a run on a file whose items hide no comma, no run changes the file
    or reports a modification. *)
Lemma process_makes_stable (reload : post → option post)
    (report_printed error_printed : bool) (f : md_file) :
  reads_back_aliases reload → plain_aliases reload f →
  stable reload (fst (process_markdown_file reload report_printed error_printed f)).
Proof.
  intros Hback Hplain.
  destruct (process_cases reload f)
    as [Hst|(p & l & new_aliases & Hl & Hget & Hsplit & Hw & Hrun)].
  { now rewrite (proj1 (Hst report_printed error_printed)). }
  rewrite Hrun. cbn [fst]. unfold plain_aliases in Hplain.
  rewrite Hl, Hget in Hplain.
  assert (Hclean : Forall comma_free new_aliases).
  { change new_aliases with (fst (new_aliases, true)).
    rewrite <- Hsplit. apply split_aliases_comma_free; [constructor|assumption]. }
  set (p' := {| metadata :=
                  dict_set (lit "aliases")
                    (YSeq (List.map DoubleQuotedScalarString new_aliases))
                    (metadata p);
                content := content p |}).
  intros r e. destruct (reload p') as [p''|] eqn:Hr.
  - rewrite (process_unmodified reload r e (Dumped p' true) p''
               (List.map DoubleQuotedScalarString new_aliases)).
    + split; [reflexivity|discriminate].
    + exact Hr.
    + apply (Hback p' p''); [exact Hr|apply dict_get_set|apply quoted_are_strings].
    + unfold split_aliases. now rewrite split_aliases_unchanged.
  - unfold process_markdown_file. cbn [loaded]. rewrite Hr.
    split; [reflexivity|apply handler_not_true].
Qed.

(** The two passes only add to the log. *)
Lemma phase_one_log_keeps (files : list (list N)) (w : world) (r : log_record) :
  r ∈ log w → r ∈ log (snd (phase_one_build_db files w)).
Proof.
  unfold phase_one_build_db.
  revert w. induction files as [|p files IH]; intros w Hr; [exact Hr|].
  cbn [for_each]. unfold mbind, M_bind, bind. rewrite phase_one_file_run.
  apply IH. destruct (fs w !! p) as [node|]; [destruct (data node)|];
    try exact Hr; cbn; apply elem_of_app; now left.
Qed.

Lemma phase_two_log_keeps (files : list (list N)) (w : world) (r : log_record) :
  r ∈ log w → r ∈ log (snd (phase_two_process_and_write files w)).
Proof.
  unfold phase_two_process_and_write.
  revert w. induction files as [|p files IH]; intros w Hr; [exact Hr|].
  cbn [for_each]. unfold mbind, M_bind, bind. rewrite phase_two_file_run.
  apply IH. destruct (fs w !! p) as [node|];
    [destruct (data node); [destruct (writable node)|]|];
    try exact Hr; cbn; apply elem_of_app; now left.
Qed.

(** * The claims *)

(** C1.  For an identifier that is absent from the database the claim wants
    the token [((id))] to pass through as written.  The replacement function
    falls back on the whole match, as the claim says, but puts the result
    between double square brackets in both cases: a file holding only the
    token of an undeclared identifier comes out as the token in brackets. *)
Theorem unresolved_reference_is_bracketed :
  BLOCK_REF_PATTERN_sub (render_ref ∅) referencing_text
  = lit "[[((" ++ ID1 ++ lit "))]]"
  ∧ transform_lines ∅ [referencing_text] = [lit "[[((" ++ ID1 ++ lit "))]]"]
  ∧ text_of (snd (migrate [B_MD] (initial_world dangling_vault))) B_MD
    = Some (lit "[[((" ++ ID1 ++ lit "))]]")
  ∧ lit "[[((" ++ ID1 ++ lit "))]]" ≠ referencing_text.
Proof. repeat split; vm_compute; congruence. Qed.

(** C2, as stated, fails: after a full run on the scenario the defining file
    is not the line [- [[Some fact page-5]]] and the reference is not
    [[[Some fact page-5]]]. *)
Lemma scenario_has_no_page_suffix :
  ¬ (let w := snd (migrate [A_MD; B_MD] (initial_world scenario_vault)) in
     (List.map strip ∘ readlines) <$> text_of w A_MD
       = Some [lit "- [[Some fact page-5]]"]
     ∧ text_of w B_MD = Some (lit "[[Some fact page-5]]")).
Proof. intros [H _]. vm_compute in H. discriminate H. Qed.

(** C2 (amended).  In the scenario the page annotation follows the
    declaration, and the backward walk of the scanner only looks at the
    lines before it: the stored text is [Some fact], the content line of the
    defining file becomes [- [[Some fact]]], its [id::] and [hl-page::]
    lines are removed, and the token of the other file becomes
    [[[Some fact]]], in whichever order the files are visited. *)
Theorem scenario_migration :
  let w := snd (migrate [A_MD; B_MD] (initial_world scenario_vault)) in
  let w' := snd (migrate [B_MD; A_MD] (initial_world scenario_vault)) in
  id_db w !! ID1 = Some (lit "Some fact")
  ∧ text_of w A_MD = Some (lit "- [[Some fact]]" ++ [10])
  ∧ text_of w B_MD = Some (lit "[[Some fact]]")
  ∧ text_of w' A_MD = text_of w A_MD
  ∧ text_of w' B_MD = text_of w B_MD
  ∧ log w = [].
Proof. repeat split; vm_compute; reflexivity. Qed.

(** C3, as stated, fails: a blank line before the declaration is chosen as
    the content line, and an empty text is stored for the identifier. *)
Lemma blank_line_is_chosen :
  ¬ (∀ lines i j,
       snd (backward_walk lines i None) = Some j →
       is_empty (strip (default [] (lines !! j))) = false).
Proof.
  intros H. specialize (H blank_gap_lines 2%nat 1%nat eq_refl).
  vm_compute in H. discriminate H.
Qed.

(** C3 (amended).  For a declaration at line [i] the backward walk selects
    the nearest preceding line that is not a recognised annotation line
    ([hl-page::], [ls-type::], [hl-color::]), blank or not; when every
    preceding line is an annotation there is no content line and the
    declaration leaves the database as it is. *)
Theorem content_line_is_nearest_non_annotation (lines : list (list N)) (i : nat) :
  match snd (backward_walk lines i None) with
  | Some j =>
    (j < i)%nat ∧ passed_over lines j = false
    ∧ (∀ k, (j < k < i)%nat → passed_over lines k = true)
  | None =>
    (∀ k, (k < i)%nat → passed_over lines k = true)
    ∧ (∀ line db, scan_line lines i line db = db)
  end.
Proof.
  pose proof (backward_walk_stops lines i None) as H.
  destruct (snd (backward_walk lines i None)) as [j|] eqn:E; [exact H|].
  split; [exact H|]. intros line db. unfold scan_line.
  rewrite (block_text_no_content _ _ E).
  now destruct (UUID_PATTERN_search line).
Qed.

(** C4, as stated, fails: the two asterisk substitutions do not commute. *)
Lemma asterisk_rules_do_not_commute :
  ¬ (∀ order text,
       order ≡ₚ source_order →
       apply_rules order text = sanitize_text_for_linking text).
Proof.
  intros H.
  specialize (H (R_star :: R_dstar :: drop 2 source_order) [42; 42]
                (perm_swap _ _ _)).
  vm_compute in H. discriminate H.
Qed.

(** C4 (amended).  The substitutions give the result of the sanitiser in
    every order that applies the double-asterisk substitution before the
    single-asterisk one. *)
Theorem sanitize_order_independent (order : list rule) (text : list N) :
  order ≡ₚ source_order →
  precedes R_dstar R_star order = true →
  apply_rules order text = sanitize_text_for_linking text.
Proof.
  intros Hperm Hprec. rewrite sanitize_shape.
  rewrite apply_rules_shape; [| | assumption].
  - apply List.map_ext. intros x. apply chars_same_rules.
    intros r. now rewrite Hperm.
  - rewrite Hperm. apply source_order_NoDup.
Qed.

Lemma sanitize_order_independent_witness :
  apply_rules (R_dstar :: rev (drop 1 source_order)) (lit "a**b/c*d")
  = sanitize_text_for_linking (lit "a**b/c*d").
Proof.
  apply sanitize_order_independent.
  - apply perm_skip. symmetry. apply Permutation_rev.
  - reflexivity.
Defined.

(** C5.  When line 0 is not a property line the header converter returns
    the lines it was given and the count zero. *)
Theorem no_header_unchanged (lines : list (list N)) :
  match lines with
  | [] => True
  | line0 :: _ => has_property_syntax (strip line0) = false
  end →
  convert_logseq_properties_to_yaml lines = (lines, 0%nat).
Proof.
  intros H. destruct lines as [|line0 rest]; [reflexivity|].
  unfold convert_logseq_properties_to_yaml. cbn [header_loop].
  now rewrite header_step_first.
Qed.

Lemma no_header_unchanged_witness :
  convert_logseq_properties_to_yaml [lit "- body" ++ [10]; lit "k:: v"]
  = ([lit "- body" ++ [10]; lit "k:: v"], 0%nat).
Proof. apply no_header_unchanged. vm_compute. reflexivity. Defined.

(** C6.  The header scenario: the two property lines become a fenced header
    in which [title:] has the item "Foo" and [tags:] the items "a" and "b";
    the rest of the file, the blank line and [- body], follows unchanged. *)
Theorem header_scenario :
  convert_logseq_properties_to_yaml header_lines
  = ([lit "---" ++ [10];
      lit "title:" ++ [10];
      lit "  - " ++ [34] ++ lit "Foo" ++ [34; 10];
      lit "tags:" ++ [10];
      lit "  - " ++ [34] ++ lit "a" ++ [34; 10];
      lit "  - " ++ [34] ++ lit "b" ++ [34; 10];
      lit "---" ++ [10]]
     ++ drop 2 header_lines, 7%nat)
  ∧ drop 2 header_lines = [[10]; lit "- body"].
Proof. split; vm_compute; reflexivity. Qed.

(** C7.  The contract asks for a cut at the commas only.  The pattern given
    to [re.split] is a character class that also holds the vertical bar, so
    an item with a comma is cut at its bars too. *)
Theorem alias_is_cut_at_vertical_bar (reload : post → option post)
    (error_printed : bool) :
  process_markdown_file reload true error_printed bar_and_comma
  = (Dumped {| metadata :=
                 [(lit "aliases",
                   YSeq [YStr (lit "A"); YStr (lit "B"); YStr (lit "C")])];
               content := lit "body" |} true, Returns true)
  ∧ split_items (lit "A|B,C") = [lit "A"; lit "B"; lit "C"]
  ∧ split_at_commas (lit "A|B,C") = [lit "A|B"; lit "C"].
Proof. repeat split; vm_compute; reflexivity. Qed.

Lemma reads_back_Some : reads_back_aliases Some.
Proof. intros p p' l [= <-] H _. exact H. Qed.

(** C8, as stated, fails: an alias that is itself a sequence is turned into
    its text, commas included, by the first run, and the second run splits
    that text, also when the file loads back exactly as it was dumped. *)
Lemma nested_alias_is_split_again :
  ¬ (∀ reload f,
       reads_back_aliases reload →
       process_markdown_file reload true true
         (fst (process_markdown_file reload true true f))
       = (fst (process_markdown_file reload true true f), Returns false)).
Proof.
  intros H. specialize (H Some nested_alias reads_back_Some).
  vm_compute in H. discriminate H.
Qed.

(** The same happens to an item that is no sequence: the text of a mapping
    holds a comma, and the second run splits it. *)
Lemma mapping_alias_is_split_again :
  snd (process_markdown_file Some true true
         (fst (process_markdown_file Some true true mapping_alias)))
  = Returns true.
Proof. vm_compute. reflexivity. Qed.

(** C8 (amended).  Let every alias item that is not a string have a text
    without a comma of either script, and let a dumped list of strings be
    read back as it was dumped.  Then a second run leaves the file of the
    first run as it is and reports no modification: it returns [False], or
    the file could not be loaded or written and the error message could not
    be printed either. *)
Theorem normaliser_idempotent_without_hidden_commas
    (reload : post → option post)
    (report_printed1 error_printed1 report_printed2 error_printed2 : bool)
    (f : md_file) :
  reads_back_aliases reload → plain_aliases reload f →
  fst (process_markdown_file reload report_printed2 error_printed2
         (fst (process_markdown_file reload report_printed1 error_printed1 f)))
  = fst (process_markdown_file reload report_printed1 error_printed1 f)
  ∧ snd (process_markdown_file reload report_printed2 error_printed2
           (fst (process_markdown_file reload report_printed1 error_printed1 f)))
    ≠ Returns true
  ∧ (error_printed2 = true →
     snd (process_markdown_file reload report_printed2 error_printed2
            (fst (process_markdown_file reload report_printed1 error_printed1 f)))
     = Returns false).
Proof.
  intros Hback Hplain.
  destruct (process_makes_stable reload report_printed1 error_printed1 f
              Hback Hplain report_printed2 error_printed2) as [Hfst Hsnd].
  split; [exact Hfst|]. split; [exact Hsnd|]. intros ->.
  set (f1 := fst (process_markdown_file reload report_printed1 error_printed1 f))
    in *.
  revert Hsnd. unfold process_markdown_file, handler.
  destruct (loaded reload f1) as [p|]; [|reflexivity].
  destruct (dict_get (lit "aliases") (metadata p)) as [[s| |b|l|st rp]|];
    try reflexivity.
  destruct (split_aliases l) as [new_aliases [|]]; [|reflexivity].
  destruct (writable_file f1); [|reflexivity].
  destruct report_printed2; [|reflexivity]. intros Hsnd. now contradict Hsnd.
Qed.

Lemma normaliser_idempotent_without_hidden_commas_witness :
  fst (process_markdown_file Some true true
         (fst (process_markdown_file Some true true mixed_alias)))
  = fst (process_markdown_file Some true true mixed_alias)
  ∧ snd (process_markdown_file Some true true
           (fst (process_markdown_file Some true true mixed_alias)))
    ≠ Returns true
  ∧ (true = true →
     snd (process_markdown_file Some true true
            (fst (process_markdown_file Some true true mixed_alias)))
     = Returns false).
Proof.
  apply (normaliser_idempotent_without_hidden_commas Some true true true true
           mixed_alias).
  - intros p p' l [= <-] H _. exact H.
  - vm_compute. reflexivity.
Defined.

(** C9.  A file that cannot be read is caught in both passes: an error
    record with the pass, the path and the exception is appended to the log
    and is still in the log when the pass ends, the loop goes on with the
    files after it, neither pass raises, and the file is still what it was
    after the whole rewriting pass.  A file that can be read but not opened
    for writing is caught in the same way: a record is appended to the log
    and nothing else changes. *)
Theorem file_failure_is_contained (before after : list (list N))
    (bad : list N) (w : world) :
  text_of w bad = None →
  (∃ e,
     phase_one_build_db (before ++ bad :: after) w
     = phase_one_build_db after
         {| fs := fs (snd (phase_one_build_db before w));
            id_db := id_db (snd (phase_one_build_db before w));
            log := log (snd (phase_one_build_db before w))
                   ++ [{| log_phase := Phase1; log_path := bad;
                          log_exn := e |}] |})
  ∧ (∃ e,
       phase_two_process_and_write (before ++ bad :: after) w
       = phase_two_process_and_write after
           {| fs := fs (snd (phase_two_process_and_write before w));
              id_db := id_db (snd (phase_two_process_and_write before w));
              log := log (snd (phase_two_process_and_write before w))
                     ++ [{| log_phase := Phase2; log_path := bad;
                            log_exn := e |}] |})
  ∧ (∃ e,
       {| log_phase := Phase1; log_path := bad; log_exn := e |}
       ∈ log (snd (phase_one_build_db (before ++ bad :: after) w)))
  ∧ (∃ e,
       {| log_phase := Phase2; log_path := bad; log_exn := e |}
       ∈ log (snd (phase_two_process_and_write (before ++ bad :: after) w)))
  ∧ fst (phase_one_build_db (before ++ bad :: after) w) = inr tt
  ∧ fst (phase_two_process_and_write (before ++ bad :: after) w) = inr tt
  ∧ fs (snd (phase_two_process_and_write (before ++ bad :: after) w)) !! bad
    = fs w !! bad
  ∧ (∀ w' text,
       fs w' !! bad = Some {| data := Some text; writable := false |} →
       phase_two_file bad w'
       = (inr tt,
          {| fs := fs w'; id_db := id_db w';
             log := log w' ++ [{| log_phase := Phase2; log_path := bad;
                                  log_exn := PermissionError |}] |})).
Proof.
  intros Hbad.
  assert (H1 : ∃ e,
     phase_one_build_db (before ++ bad :: after) w
     = phase_one_build_db after
         {| fs := fs (snd (phase_one_build_db before w));
            id_db := id_db (snd (phase_one_build_db before w));
            log := log (snd (phase_one_build_db before w))
                   ++ [{| log_phase := Phase1; log_path := bad;
                          log_exn := e |}] |}).
  { destruct (phase_one_file_unreadable bad (snd (phase_one_build_db before w)))
      as [e He].
    { unfold text_of in *. now rewrite phase_one_fs. }
    exists e. apply for_each_after; [|exact He].
    intros p w'. now rewrite phase_one_file_run. }
  assert (H2 : ∃ e,
     phase_two_process_and_write (before ++ bad :: after) w
     = phase_two_process_and_write after
         {| fs := fs (snd (phase_two_process_and_write before w));
            id_db := id_db (snd (phase_two_process_and_write before w));
            log := log (snd (phase_two_process_and_write before w))
                   ++ [{| log_phase := Phase2; log_path := bad;
                          log_exn := e |}] |}).
  { destruct (phase_two_file_unreadable bad
                (snd (phase_two_process_and_write before w))) as [e He].
    { unfold text_of in *. now rewrite phase_two_keeps. }
    exists e. apply for_each_after; [|exact He].
    intros p w'. now rewrite phase_two_file_run. }
  split; [exact H1|]. split; [exact H2|]. split; [|split].
  - destruct H1 as [e ->]. exists e. apply phase_one_log_keeps.
    cbn [log]. apply elem_of_app. right. now left.
  - destruct H2 as [e ->]. exists e. apply phase_two_log_keeps.
    cbn [log]. apply elem_of_app. right. now left.
  - repeat split.
    + apply phase_one_total.
    + apply phase_two_total.
    + now apply phase_two_keeps.
    + intros w' text. apply phase_two_file_unwritable.
Qed.

Lemma file_failure_is_contained_witness :
  ∃ e,
    {| log_phase := Phase2; log_path := C_MD; log_exn := e |}
    ∈ log (snd (phase_two_process_and_write ([A_MD] ++ C_MD :: [B_MD])
                  (initial_world faulty_vault))).
Proof.
  apply (file_failure_is_contained [A_MD] [B_MD] C_MD (initial_world faulty_vault)).
  vm_compute. reflexivity.
Defined.

(** C10.  After the scanner pass over any files, every value of the
    database is an output of the sanitiser and holds none of the characters
    asterisk, colon, question mark, less-than, greater-than, double quote,
    vertical bar, backslash and slash, page suffix included. *)
Theorem database_values_are_sanitized (files : list (list N))
    (vault : gmap (list N) file_node) (uuid_val text : list N) :
  id_db (snd (phase_one_build_db files (initial_world vault))) !! uuid_val
  = Some text →
  (∃ final_content, text = sanitize_text_for_linking final_content)
  ∧ Forall (fun c => forbidden c = false) text.
Proof.
  intros H.
  assert (Hdb : db_sanitized
                  (id_db (snd (phase_one_build_db files (initial_world vault))))).
  { apply phase_one_sanitized. intros k v Hk. cbn in Hk.
    rewrite lookup_empty in Hk. discriminate. }
  destruct (Hdb _ _ H) as [fc ->]. split; [eauto|apply sanitize_clean].
Qed.

Lemma database_values_are_sanitized_witness :
  (∃ final_content,
     [97; STAR; 98; FW_BAR; 99; 32; 112; 97; 103; 101; 45; 53; 45; 54]
     = sanitize_text_for_linking final_content)
  ∧ Forall (fun c => forbidden c = false)
           [97; STAR; 98; FW_BAR; 99; 32; 112; 97; 103; 101; 45; 53; 45; 54].
Proof.
  apply (database_values_are_sanitized [A_MD] annotated_vault ID1).
  vm_compute. reflexivity.
Defined.

(** * Further properties of the code *)

(** ** The sanitiser *)

Lemma dstar_without_asterisk (s : list N) :
  42 ∉ s → apply_rule R_dstar s = s.
Proof.
  unfold apply_rule, replace. cbn [rule_old rule_new].
  induction s as [|x t IH]; intros H; [reflexivity|].
  apply not_elem_of_cons in H as [Hx Ht].
  cbn [replace_go startswith].
  destruct (N.eqb_spec 42 x) as [E|_]; [congruence|].
  cbn [andb]. now rewrite IH.
Qed.

Lemma chars_fixes_clean (q : list rule) (x : N) :
  forbidden x = false → chars q x = x.
Proof.
  intros E. apply chars_fixed. intros r _. unfold forbidden in E.
  repeat (apply orb_false_iff in E as [E ?]).
  destruct r; cbn; try reflexivity;
    match goal with H : (x =? ?c) = false |- context [x =? ?c] => now rewrite H end.
Qed.

Lemma sanitize_clean_text (s : list N) :
  Forall (fun c => forbidden c = false) s → sanitize_text_for_linking s = s.
Proof.
  intros H. rewrite sanitize_shape, dstar_without_asterisk.
  - rewrite <- (List.map_id s) at 2. apply List.map_ext_in. intros c Hc.
    apply chars_fixes_clean. rewrite Forall_forall in H. apply H.
    now apply list_elem_of_In.
  - intros H42. rewrite Forall_forall in H. apply H in H42. discriminate.
Qed.

(** X1.  The sanitiser leaves a text as it is exactly when the text holds
    none of the nine characters it replaces. *)
Theorem sanitize_fixpoint (s : list N) :
  sanitize_text_for_linking s = s ↔ Forall (fun c => forbidden c = false) s.
Proof.
  split; [intros <-; apply sanitize_clean | apply sanitize_clean_text].
Qed.

(** X2.  Sanitising twice is sanitising once. *)
Theorem sanitize_idempotent (s : list N) :
  sanitize_text_for_linking (sanitize_text_for_linking s)
  = sanitize_text_for_linking s.
Proof. apply sanitize_clean_text, sanitize_clean. Qed.

Lemma dstar_go_length (k : nat) (s : list N) :
  (length (replace_go (rule_old R_dstar) (rule_new R_dstar) k s) ≤ length s)%nat.
Proof.
  cbn [rule_old rule_new]. revert k. induction s as [|x t IH]; intros k; [cbn; lia|].
  cbn [replace_go]. destruct k as [|k].
  - destruct (startswith [42; 42] (x :: t)); cbn [length Nat.pred app].
    + specialize (IH 1%nat). lia.
    + specialize (IH 0%nat). lia.
  - specialize (IH k). cbn [length]. lia.
Qed.

(** X3.  The sanitiser never makes a text longer, and keeps its length when
    the text has no asterisk. *)
Theorem sanitize_length (s : list N) :
  (length (sanitize_text_for_linking s) ≤ length s)%nat
  ∧ (42 ∉ s → length (sanitize_text_for_linking s) = length s).
Proof.
  rewrite sanitize_shape, length_map. split.
  - apply dstar_go_length.
  - intros H. now rewrite dstar_without_asterisk.
Qed.

(** ** The patterns *)

Lemma uuid_at_identifier (s u : list N) : uuid_at s = Some u → is_identifier u.
Proof.
  unfold uuid_at, is_identifier.
  destruct (length (take 36 s) =? 36)%nat eqn:E1; [|discriminate].
  destruct (forallb uuid_char (take 36 s)) eqn:E2; [|discriminate].
  intros [= <-]. split; [apply Nat.eqb_eq, E1 | exact E2].
Qed.

Lemma uuid_at_app (u rest : list N) :
  is_identifier u → uuid_at (u ++ rest) = Some u.
Proof.
  intros [Hlen Hall]. unfold uuid_at.
  rewrite take_app_length' by (symmetry; exact Hlen). now rewrite Hlen, Hall.
Qed.

Lemma UUID_PATTERN_search_identifier (s u : list N) :
  UUID_PATTERN_search s = Some u → is_identifier u.
Proof.
  induction s as [|c t IH]; cbn [UUID_PATTERN_search].
  - destruct (UUID_PATTERN_at []) eqn:E; [|discriminate].
    intros [= <-]. unfold UUID_PATTERN_at in E.
    destruct (startswith _ _); [|discriminate]. now apply uuid_at_identifier in E.
  - destruct (UUID_PATTERN_at (c :: t)) eqn:E; [|exact IH].
    intros [= <-]. unfold UUID_PATTERN_at in E.
    destruct (startswith _ _); [|discriminate]. now apply uuid_at_identifier in E.
Qed.

Lemma BLOCK_REF_PATTERN_at_token (u rest : list N) :
  is_identifier u → BLOCK_REF_PATTERN_at (token u ++ rest) = Some u.
Proof.
  intros Hu. unfold BLOCK_REF_PATTERN_at, token. eval_lit.
  change (([40; 40] ++ u ++ [41; 41]) ++ rest)
    with (40 :: 40 :: ((u ++ [41; 41]) ++ rest)).
  rewrite <- app_assoc.
  change (startswith [40; 40] (40 :: 40 :: u ++ [41; 41] ++ rest)) with true.
  change (drop 2 (40 :: 40 :: u ++ [41; 41] ++ rest))
    with (u ++ [41; 41] ++ rest).
  rewrite (uuid_at_app _ _ Hu).
  change (drop 38 (40 :: 40 :: u ++ [41; 41] ++ rest))
    with (drop 36 (u ++ [41; 41] ++ rest)).
  destruct Hu as [Hlen _]. rewrite drop_app_length' by (symmetry; exact Hlen).
  reflexivity.
Qed.

Lemma block_ref_sub_go_skip (repl : list N → list N → list N)
    (skipped rest : list N) :
  block_ref_sub_go repl (length skipped) (skipped ++ rest)
  = block_ref_sub_go repl 0 rest.
Proof.
  induction skipped as [|c t IH]; [reflexivity|].
  cbn [length app block_ref_sub_go]. exact IH.
Qed.

Lemma token_length (u : list N) : is_identifier u → length (token u) = 40%nat.
Proof. intros [H _]. unfold token. rewrite !length_app, H. reflexivity. Qed.

(** X4.  A reference token at the start of a line is replaced by what the
    replacement function gives for its identifier and the substitution goes
    on behind it; with the function of the rewriter, a known identifier
    gives its text in double square brackets and an unknown one the token
    in double square brackets. *)
Theorem block_ref_sub_token (db : gmap (list N) (list N)) (u rest : list N) :
  is_identifier u →
  BLOCK_REF_PATTERN_sub (render_ref db) (token u ++ rest)
  = lit "[[" ++ default (token u) (db !! u) ++ lit "]]"
    ++ BLOCK_REF_PATTERN_sub (render_ref db) rest.
Proof.
  intros Hu. unfold BLOCK_REF_PATTERN_sub.
  pose proof (token_length u Hu) as Hlen.
  pose proof (BLOCK_REF_PATTERN_at_token u rest Hu) as Hat.
  remember (token u) as tk eqn:Et.
  destruct tk as [|c t]; [discriminate|].
  cbn [app block_ref_sub_go]. change (c :: t ++ rest) with ((c :: t) ++ rest).
  rewrite Hat, take_app_length' by (symmetry; exact Hlen).
  assert (length t = 39%nat) as <- by (cbn in Hlen; lia).
  rewrite block_ref_sub_go_skip. unfold render_ref.
  now rewrite <- !app_assoc.
Qed.

Lemma block_ref_sub_token_witness :
  BLOCK_REF_PATTERN_sub (render_ref sample_db) (token ID1 ++ lit " and more")
  = lit "[[" ++ default (token ID1) (sample_db !! ID1) ++ lit "]]"
    ++ BLOCK_REF_PATTERN_sub (render_ref sample_db) (lit " and more").
Proof. apply block_ref_sub_token. split; vm_compute; reflexivity. Defined.

Lemma contains_cons (sub s : list N) (c : N) :
  contains sub (c :: s) = false →
  startswith sub (c :: s) = false ∧ contains sub s = false.
Proof. cbn [contains]. now intros [? ?]%orb_false_iff. Qed.

Lemma block_ref_sub_go_plain (repl : list N → list N → list N)
    (line : list N) :
  contains (lit "((") line = false → block_ref_sub_go repl 0 line = line.
Proof.
  induction line as [|c t IH]; intros H; [reflexivity|].
  apply contains_cons in H as [H1 H2].
  cbn [block_ref_sub_go]. unfold BLOCK_REF_PATTERN_at. rewrite H1.
  now rewrite IH.
Qed.

(** X5.  A line without two opening parentheses in a row is left as it is
    by the substitution of the references. *)
Theorem block_ref_sub_without_parentheses (repl : list N → list N → list N)
    (line : list N) :
  contains (lit "((") line = false → BLOCK_REF_PATTERN_sub repl line = line.
Proof. apply block_ref_sub_go_plain. Qed.

Lemma block_ref_sub_without_parentheses_witness :
  BLOCK_REF_PATTERN_sub (render_ref ∅) (lit "- f(x) (see (1))")
  = lit "- f(x) (see (1))".
Proof. apply block_ref_sub_without_parentheses. vm_compute. reflexivity. Defined.

(** ** Reading and writing lines *)




Lemma removelast_elem (l : list N) (x : N) : x ∈ removelast l → x ∈ l.
Proof.
  induction l as [|a l IH]; [auto|].
  cbn [removelast]. destruct l as [|b l]; [intros H; inversion H|].
  intros [->|H]%elem_of_cons; [left | right; auto].
Qed.

Lemma lines_go_shape (cur s line : list N) :
  10 ∉ cur → line ∈ lines_go cur s →
  line ≠ [] ∧ 10 ∉ removelast line.
Proof.
  revert cur. induction s as [|c t IH]; intros cur Hcur; cbn [lines_go].
  - destruct cur as [|x cur]; [intros H; inversion H|].
    intros ->%list_elem_of_singleton. split.
    + intros E. apply (f_equal (@length N)) in E.
      rewrite length_rev in E. discriminate.
    + intros H. apply Hcur. apply (proj1 (elem_of_rev _ _)).
      now apply removelast_elem.
  - destruct (N.eqb_spec c 10) as [->|Hc].
    + intros [->|H]%elem_of_cons.
      * cbn [rev]. split; [now destruct (rev cur)|].
        rewrite removelast_last. intros H. apply Hcur.
        now apply (proj1 (elem_of_rev _ _)).
      * apply (IH []); [apply not_elem_of_nil|assumption].
    + apply IH. apply not_elem_of_cons. now split.
Qed.

(** X7.  No line that [readlines] returns is empty, and a line feed can only
    be the last character of a line. *)
Theorem readlines_lines (text line : list N) :
  line ∈ readlines text → line ≠ [] ∧ 10 ∉ removelast line.
Proof. apply lines_go_shape, not_elem_of_nil. Qed.

Lemma readlines_lines_witness :
  [97; 10] ≠ [] ∧ 10 ∉ removelast [97; 10].
Proof.
  apply (readlines_lines [97; 13; 10; 98]). vm_compute. left.
Defined.

(** ** The header converter *)

Lemma split_single_go (c : N) (cur s : list N) :
  split_go [c] 0 cur s = re_split_go (N.eqb c) cur s.
Proof.
  revert cur. induction s as [|x t IH]; intros cur; [reflexivity|].
  cbn [split_go re_split_go startswith length Nat.pred].
  rewrite andb_true_r. destruct (c =? x); now rewrite IH.
Qed.

Lemma split_comma_pieces (s piece : list N) :
  piece ∈ split [44] s → 44 ∉ piece.
Proof.
  unfold split. rewrite split_single_go. intros Hp H44.
  assert (N.eqb 44 44 = false) as E; [|discriminate E].
  eapply re_split_go_pieces; [|exact Hp|exact H44].
  intros y Hy. inversion Hy.
Qed.

Lemma dict_set_keys {V : Type} (k : list N) (v : V) (d : list (list N * V)) :
  List.map fst (dict_set k v d)
  = if bool_decide (k ∈ List.map fst d) then List.map fst d
    else List.map fst d ++ [k].
Proof.
  induction d as [|[k' v'] d IH]; [reflexivity|].
  cbn [dict_set List.map fst]. destruct (decide (k' = k)) as [->|Hne].
  - cbn. rewrite bool_decide_eq_true_2 by left. reflexivity.
  - cbn [List.map fst]. rewrite IH. destruct (bool_decide (k ∈ List.map fst d)) eqn:E.
    + apply bool_decide_eq_true_1 in E.
      rewrite bool_decide_eq_true_2 by (right; exact E). reflexivity.
    + apply bool_decide_eq_false_1 in E.
      rewrite bool_decide_eq_false_2; [reflexivity|].
      intros [?|?]%elem_of_cons; [congruence|contradiction].
Qed.

Lemma dict_set_NoDup {V : Type} (k : list N) (v : V) (d : list (list N * V)) :
  NoDup (List.map fst d) → NoDup (List.map fst (dict_set k v d)).
Proof.
  intros H. rewrite dict_set_keys. destruct (bool_decide _) eqn:E; [assumption|].
  apply bool_decide_eq_false_1 in E. apply NoDup_app. repeat split.
  - assumption.
  - intros x Hx ->%list_elem_of_singleton. contradiction.
  - apply NoDup_singleton.
Qed.

Lemma dict_set_Forall {V : Type} (P : list N * V → Prop) (k : list N) (v : V)
    (d : list (list N * V)) :
  P (k, v) → Forall P d → Forall P (dict_set k v d).
Proof.
  intros Hkv. induction d as [|[k' v'] d IH]; intros Hd; cbn [dict_set].
  - repeat constructor. exact Hkv.
  - apply Forall_cons in Hd as [Hd1 Hd2].
    destruct (decide (k' = k)) as [->|Hne]; constructor; auto.
Qed.

Lemma record_property_well_formed (i : nat) (line_stripped : list N)
    (st : header_state) :
  well_formed_properties (properties st) →
  well_formed_properties (properties (record_property i line_stripped st)).
Proof.
  intros [Hnd Hall]. unfold record_property.
  destruct (split1 (lit "::") line_stripped) as [|key value_parts]; [now split|].
  destruct (is_empty (strip key)) eqn:Ek; [now split|].
  cbn [properties]. split; [now apply dict_set_NoDup|].
  apply dict_set_Forall; [|assumption]. cbn [fst snd]. repeat split.
  - destruct (decide (strip key = lit "alias")); [discriminate|].
    intros E. rewrite E in Ek. discriminate.
  - destruct (decide (strip key = lit "alias")) as [E|E]; [discriminate|exact E].
  - apply Forall_forall. intros v Hv.
    apply list_elem_of_In, filter_In in Hv as [Hv Hne].
    apply in_map_iff in Hv as (raw & <- & Hraw). split.
    + intros E. rewrite E in Hne. discriminate.
    + intros H44%strip_elem. apply list_elem_of_In in Hraw.
      exact (split_comma_pieces _ _ Hraw H44).
Qed.

Lemma dict_set_not_nil {V : Type} (k : list N) (v : V) (d : list (list N * V)) :
  dict_set k v d ≠ [].
Proof. destruct d as [|[k' v'] d]; cbn; [discriminate|]. now destruct (decide _). Qed.

Lemma record_property_invariant (i : nat) (line_stripped : list N)
    (st : header_state) :
  header_invariant i st →
  header_invariant (S i) (record_property i line_stripped st).
Proof.
  intros (H1 & H2 & H3). split; [|split].
  - unfold record_property. destruct (split1 _ _); [lia|].
    destruct (is_empty _); [lia|]. cbn. lia.
  - unfold record_property. destruct (split1 _ _); [exact H2|].
    destruct (is_empty _); [exact H2|]. cbn. lia.
  - now apply record_property_well_formed.
Qed.

Lemma header_step_invariant (lines : list (list N)) (i : nat) (line : list N)
    (st : header_state) :
  header_invariant i st →
  match header_step lines i line st with
  | Next st' => header_invariant (S i) st'
  | Break st' => header_invariant (S i) st'
  | Return_unchanged => True
  end.
Proof.
  intros Hst. assert (Hweak : header_invariant (S i) st).
  { destruct Hst as (H1 & H2 & H3). split; [lia|split; [exact H2|exact H3]]. }
  unfold header_step. destruct (has_property_syntax (strip line)).
  - destruct (_ || _); [|exact Hweak]. cbn [in_properties_block].
    apply (record_property_invariant i (strip line)
             {| properties := properties st;
                property_lines_count := property_lines_count st;
                in_properties_block := true |}).
    exact Hst.
  - destruct (is_empty (strip line) && in_properties_block st); [exact Hweak|].
    destruct (in_properties_block st); [exact Hweak|exact I].
Qed.

Lemma header_loop_invariant (lines rest : list (list N)) (i : nat)
    (st st' : header_state) :
  header_invariant i st → header_loop lines i rest st = Some st' →
  header_invariant (i + length rest) st'.
Proof.
  revert i st. induction rest as [|line rest IH]; intros i st Hst; cbn [header_loop].
  - intros [= <-]. now rewrite Nat.add_0_r.
  - pose proof (header_step_invariant lines i line st Hst) as Hstep.
    destruct (header_step lines i line st) as [st1|st1|]; [| |discriminate].
    + intros H. apply IH in H; [|exact Hstep].
      cbn [length]. now rewrite Nat.add_succ_r.
    + intros [= <-]. destruct Hstep as (H1 & H2 & H3).
      split; [cbn [length]; lia|split; [exact H2|exact H3]].
Qed.

Lemma initial_header_invariant : header_invariant 0 initial_header_state.
Proof.
  split; [cbn; lia|split; [cbn; congruence|split; constructor]].
Qed.

Lemma render_yaml_length (props : list (list N * list (list N))) :
  props ≠ [] → (3 ≤ length (render_yaml props))%nat.
Proof.
  destruct props as [|kv props]; [congruence|]. intros _.
  unfold render_yaml, yaml_entry. cbn [List.map concat app].
  cbn [length]. rewrite !length_app. cbn [length]. lia.
Qed.

Lemma convert_cases (lines : list (list N)) :
  convert_logseq_properties_to_yaml lines = (lines, 0%nat)
  ∨ ∃ props n,
      (0 < n ≤ length lines)%nat
      ∧ convert_logseq_properties_to_yaml lines
        = (render_yaml props ++ drop n lines, length (render_yaml props))
      ∧ (3 ≤ length (render_yaml props))%nat.
Proof.
  unfold convert_logseq_properties_to_yaml.
  change {| properties := []; property_lines_count := 0;
            in_properties_block := false |} with initial_header_state.
  destruct (header_loop lines 0 lines initial_header_state) as [st|] eqn:E;
    [|now left].
  apply header_loop_invariant in E as (H1 & H2 & _);
    [|exact initial_header_invariant].
  destruct (properties st) as [|kv props] eqn:Ep; [now left|].
  right. exists (kv :: props), (property_lines_count st). repeat split.
  - apply H2. discriminate.
  - exact H1.
  - now apply render_yaml_length.
Qed.

(** X8.  The header converter either gives back its input with the count 0
    or puts a fenced header of at least three lines before a suffix of the
    input that leaves out at least the first line; the count is the number
    of header lines. *)
Theorem convert_shape (lines : list (list N)) :
  convert_logseq_properties_to_yaml lines = (lines, 0%nat)
  ∨ ∃ props n,
      (0 < n ≤ length lines)%nat
      ∧ convert_logseq_properties_to_yaml lines
        = (render_yaml props ++ drop n lines, length (render_yaml props))
      ∧ (3 ≤ length (render_yaml props))%nat.
Proof. apply convert_cases. Qed.

Lemma convert_fence_first (rest : list (list N)) :
  convert_logseq_properties_to_yaml (FENCE :: rest) = (FENCE :: rest, 0%nat).
Proof.
  unfold convert_logseq_properties_to_yaml. cbn [header_loop].
  now rewrite header_step_first.
Qed.

(** X9.  The header converter does nothing to its own output: a file that
    has been converted is not converted again. *)
Theorem convert_idempotent (lines : list (list N)) :
  convert_logseq_properties_to_yaml
    (fst (convert_logseq_properties_to_yaml lines))
  = (fst (convert_logseq_properties_to_yaml lines), 0%nat).
Proof.
  destruct (convert_cases lines) as [H|(props & n & _ & H & _)]; rewrite H.
  - exact H.
  - cbn [fst]. unfold render_yaml. cbn [app]. apply convert_fence_first.
Qed.

(** X10.  When the loop of the header converter ends, the keys of
    [properties] are distinct, none is empty or [alias], and no value is
    empty or holds a comma. *)
Theorem header_properties_well_formed (lines : list (list N))
    (st : header_state) :
  header_loop lines 0 lines initial_header_state = Some st →
  well_formed_properties (properties st).
Proof.
  intros H. apply header_loop_invariant in H as (_ & _ & H);
    [exact H|exact initial_header_invariant].
Qed.

Lemma header_properties_well_formed_witness :
  well_formed_properties
    [(lit "title", [lit "Foo"]); (lit "aliases", [lit "a"; lit "b"])].
Proof.
  apply (header_properties_well_formed
           [lit "title:: Foo" ++ [10]; lit "alias:: a, b,"]
           {| properties :=
                [(lit "title", [lit "Foo"]); (lit "aliases", [lit "a"; lit "b"])];
              property_lines_count := 2;
              in_properties_block := true |}).
  vm_compute. reflexivity.
Defined.

(** ** The scanner *)

Lemma scan_line_other (lines : list (list N)) (i : nat) (line u : list N)
    (db : gmap (list N) (list N)) :
  UUID_PATTERN_search line ≠ Some u → scan_line lines i line db !! u = db !! u.
Proof.
  intros Hne. unfold scan_line.
  destruct (UUID_PATTERN_search line) as [v|]; [|reflexivity].
  destruct (block_text lines i); [|reflexivity].
  apply lookup_insert_ne. congruence.
Qed.

Lemma scan_from_other (lines rest : list (list N)) (i : nat) (u : list N)
    (db : gmap (list N) (list N)) :
  Forall (fun line => UUID_PATTERN_search line ≠ Some u) rest →
  scan_from lines i rest db !! u = db !! u.
Proof.
  revert i db. induction rest as [|line rest IH]; intros i db H; [reflexivity|].
  apply Forall_cons in H as [H1 H2]. cbn [scan_from].
  rewrite IH by assumption. now apply scan_line_other.
Qed.

Lemma scan_from_app (lines l1 l2 : list (list N)) (i : nat)
    (db : gmap (list N) (list N)) :
  scan_from lines i (l1 ++ l2) db
  = scan_from lines (i + length l1) l2 (scan_from lines i l1 db).
Proof.
  revert i db. induction l1 as [|line l1 IH]; intros i db; cbn [app scan_from length].
  - now rewrite Nat.add_0_r.
  - rewrite IH. now rewrite Nat.add_succ_r.
Qed.

(** X11.  Of the declarations of one identifier in a file, the last one
    decides the entry: when it is stored, its text is what the database holds
    after the file, whatever was there before. *)
Theorem last_declaration_wins (before after : list (list N)) (line u text : list N)
    (db : gmap (list N) (list N)) :
  UUID_PATTERN_search line = Some u →
  block_text (before ++ line :: after) (length before) = Some text →
  Forall (fun l => UUID_PATTERN_search l ≠ Some u) after →
  scan_lines (before ++ line :: after) db !! u = Some text.
Proof.
  intros Hu Ht Hafter. unfold scan_lines. rewrite scan_from_app.
  cbn [scan_from Nat.add]. rewrite scan_from_other by assumption.
  unfold scan_line. rewrite Hu, Ht. apply lookup_insert_eq.
Qed.

Lemma last_declaration_wins_witness :
  scan_lines
    ([lit "- first" ++ [10]; lit "id:: " ++ ID1 ++ [10]; lit "- second" ++ [10]]
       ++ (lit "id:: " ++ ID1 ++ [10]) :: [lit "- third" ++ [10]])
    ∅ !! ID1
  = Some (lit "second").
Proof.
  apply last_declaration_wins.
  - vm_compute. reflexivity.
  - vm_compute. reflexivity.
  - repeat constructor. vm_compute. discriminate.
Defined.

(** X12.  A file changes the entries of the identifiers that its lines
    declare and no others. *)
Theorem scan_keeps_undeclared (lines : list (list N)) (u : list N)
    (db : gmap (list N) (list N)) :
  Forall (fun line => UUID_PATTERN_search line ≠ Some u) lines →
  scan_lines lines db !! u = db !! u.
Proof. apply scan_from_other. Qed.

Lemma scan_keeps_undeclared_witness :
  scan_lines (readlines defining_text) sample_db !! lit "other"
  = sample_db !! lit "other".
Proof.
  apply scan_keeps_undeclared. vm_compute.
  repeat constructor; discriminate.
Defined.

Lemma scan_from_origin (lines rest : list (list N)) (i : nat) (u : list N)
    (db : gmap (list N) (list N)) :
  is_Some (scan_from lines i rest db !! u) →
  is_Some (db !! u) ∨ ∃ line, line ∈ rest ∧ UUID_PATTERN_search line = Some u.
Proof.
  revert i db. induction rest as [|line rest IH]; intros i db H; [now left|].
  cbn [scan_from] in H. apply IH in H as [H|(l & Hl & Hu)].
  - destruct (decide (UUID_PATTERN_search line = Some u)) as [E|E].
    + right. exists line. split; [left|exact E].
    + left. now rewrite scan_line_other in H.
  - right. exists l. split; [now right|exact Hu].
Qed.

Lemma phase_one_origin (files : list (list N)) (w : world) (u : list N) :
  is_Some (id_db (snd (phase_one_build_db files w)) !! u) →
  is_Some (id_db w !! u) ∨ declared_in w files u.
Proof.
  unfold phase_one_build_db.
  revert w. induction files as [|p files IH]; intros w H; [now left|].
  cbn [for_each] in H. unfold mbind, M_bind, bind in H.
  rewrite phase_one_file_run in H. cbn [snd] in H.
  assert (Hmono : ∀ w', fs w' = fs w → declared_in w' files u →
                        declared_in w (p :: files) u).
  { intros w' Hfs (q & text & line & Hq & Ht & Hl & Hu).
    exists q, text, line. repeat split; auto; [now right|].
    unfold text_of in *. now rewrite <- Hfs. }
  destruct (fs w !! p) as [node|] eqn:Ep.
  - destruct (data node) as [text|] eqn:Ed.
    + apply IH in H as [H|H]; [|right; now apply (Hmono _ eq_refl)].
      cbn [id_db] in H. apply scan_from_origin in H as [H|(line & Hl & Hu)];
        [now left|].
      right. exists p, text, line. repeat split; auto; [left|].
      unfold text_of. rewrite Ep. exact Ed.
    + apply IH in H as [H|H]; [now left|right; now apply (Hmono _ eq_refl)].
  - apply IH in H as [H|H]; [now left|right; now apply (Hmono _ eq_refl)].
Qed.

(** X13.  After the scanner has run on an empty database, every key of the
    database is a 36-character identifier that a line of a readable file of
    the list declares. *)
Theorem database_keys_are_declared (vault : gmap (list N) file_node)
    (files : list (list N)) (u text : list N) :
  id_db (snd (phase_one_build_db files (initial_world vault))) !! u = Some text →
  is_identifier u ∧ declared_in (initial_world vault) files u.
Proof.
  intros H. assert (Hd : declared_in (initial_world vault) files u).
  { destruct (phase_one_origin files (initial_world vault) u) as [[t Ht]|Hd];
      [now rewrite H| |exact Hd].
    cbn in Ht. rewrite lookup_empty in Ht. discriminate. }
  split; [|exact Hd]. destruct Hd as (p & t & line & _ & _ & _ & Hu).
  now apply UUID_PATTERN_search_identifier in Hu.
Qed.

Lemma database_keys_are_declared_witness :
  is_identifier ID1
  ∧ declared_in (initial_world scenario_vault) [A_MD; B_MD] ID1.
Proof.
  apply (database_keys_are_declared scenario_vault [A_MD; B_MD] ID1
           (lit "Some fact")).
  vm_compute. reflexivity.
Defined.

Lemma phase_one_log (files : list (list N)) (w : world) :
  ∃ new,
    log (snd (phase_one_build_db files w)) = log w ++ new
    ∧ Forall (fun r => log_phase r = Phase1 ∧ log_path r ∈ files
                       ∧ text_of w (log_path r) = None) new.
Proof.
  unfold phase_one_build_db.
  revert w. induction files as [|p files IH]; intros w.
  { exists []. split; [now rewrite app_nil_r|constructor]. }
  cbn [for_each]. unfold mbind, M_bind, bind. rewrite phase_one_file_run.
  assert (Hstep : ∀ w' first,
    fs w' = fs w → log w' = log w ++ first →
    Forall (fun r => log_phase r = Phase1 ∧ log_path r ∈ p :: files
                     ∧ text_of w (log_path r) = None) first →
    ∃ new, log (snd (for_each files phase_one_file w')) = log w ++ new
      ∧ Forall (fun r => log_phase r = Phase1 ∧ log_path r ∈ p :: files
                         ∧ text_of w (log_path r) = None) new).
  { intros w' first Hfs Hlog Hfirst. destruct (IH w') as (new & Hn & Hall).
    exists (first ++ new). split; [now rewrite Hn, Hlog, app_assoc|].
    apply Forall_app. split; [exact Hfirst|].
    eapply Forall_impl; [exact Hall|]. intros r (H1 & H2 & H3).
    repeat split; auto; [now right|]. unfold text_of in *. now rewrite <- Hfs. }
  destruct (fs w !! p) as [node|] eqn:Ep.
  - destruct (data node) as [text|] eqn:Ed.
    + apply (Hstep _ []); [reflexivity|cbn; now rewrite app_nil_r|constructor].
    + apply (Hstep _ [{| log_phase := Phase1; log_path := p; log_exn := ReadError |}]);
        [reflexivity|reflexivity|].
      repeat constructor. cbn. unfold text_of. rewrite Ep. exact Ed.
  - apply (Hstep _ [{| log_phase := Phase1; log_path := p;
                       log_exn := FileNotFoundError |}]);
      [reflexivity|reflexivity|].
    repeat constructor. cbn. unfold text_of. now rewrite Ep.
Qed.

(** X14.  The scanner writes no file, and what it adds to the log are
    records of the first pass for files of the list that could not be
    read. *)
Theorem scanner_is_read_only (files : list (list N)) (w : world) :
  fs (snd (phase_one_build_db files w)) = fs w
  ∧ ∃ new,
      log (snd (phase_one_build_db files w)) = log w ++ new
      ∧ Forall (fun r => log_phase r = Phase1 ∧ log_path r ∈ files
                         ∧ text_of w (log_path r) = None) new.
Proof. split; [apply phase_one_fs|apply phase_one_log]. Qed.

(** ** The rewriter *)

Lemma mark_sidecars_spec (tail : list (list N)) (j : nat) (del : gset nat)
    (x : nat) :
  x ∈ mark_sidecars tail j del
  ↔ x ∈ del
    ∨ (j ≤ x)%nat
      ∧ ∀ k, (j ≤ k ≤ x)%nat →
             ∃ l, tail !! (k - j)%nat = Some l ∧ is_sidecar (strip l) = true.
Proof.
  revert j del. induction tail as [|l tail IH]; intros j del; cbn [mark_sidecars].
  - split; [now left|]. intros [H|[Hj H]]; [exact H|].
    destruct (H j) as (l & Hl & _); [lia|]. discriminate.
  - destruct (is_sidecar (strip l)) eqn:El.
    + rewrite IH. split.
      * intros [[Hx|Hx]%elem_of_union|[Hj H]].
        -- apply elem_of_singleton in Hx as ->. right. split; [lia|].
           intros k Hk. replace (k - j)%nat with 0%nat by lia. now exists l.
        -- now left.
        -- right. split; [lia|]. intros k Hk.
           destruct (decide (k = j)) as [->|Hne].
           ++ replace (j - j)%nat with 0%nat by lia. now exists l.
           ++ destruct (H k) as (l' & Hl' & Hs); [lia|]. exists l'.
              split; [|exact Hs].
              replace (k - j)%nat with (S (k - S j)) by lia. exact Hl'.
      * intros [Hx|[Hj H]]; [left; apply elem_of_union; now right|].
        destruct (decide (x = j)) as [->|Hne].
        -- left. apply elem_of_union. left. now apply elem_of_singleton.
        -- right. split; [lia|]. intros k Hk.
           destruct (H k) as (l' & Hl' & Hs); [lia|]. exists l'.
           split; [|exact Hs].
           replace (k - j)%nat with (S (k - S j)) in Hl' by lia. exact Hl'.
    + split; [now left|]. intros [H|[Hj H]]; [exact H|].
      destruct (H j) as (l' & Hl' & Hs); [lia|].
      replace (j - j)%nat with 0%nat in Hl' by lia. cbn in Hl'.
      injection Hl' as <-. congruence.
Qed.

Lemma rewrite_step_run (db : gmap (list N) (list N)) (lines ls : list (list N))
    (del : gset nat) (k : nat) (line : list N) :
  (∀ i, (k ≤ i)%nat → ls !! i = lines !! i) →
  lines !! k = Some line →
  rewrite_step db (ls, del) k
  = (<[k := rewritten_line db lines k line]> ls,
     match resolved_declaration db lines k with
     | Some _ => mark_sidecars (drop (S (S k)) lines) (S (S k)) ({[S k]} ∪ del)
     | None => del
     end).
Proof.
  intros Hag Hline. unfold rewrite_step.
  assert (Hk : ls !! k = Some line) by (rewrite Hag by lia; exact Hline).
  rewrite Hk. cbv zeta. rewrite list_lookup_insert_ne by lia.
  rewrite (Hag (S k)) by lia. unfold rewritten_line, resolved_declaration.
  destruct (lines !! S k) as [next|]; [|reflexivity]. cbn [mbind option_bind].
  destruct (UUID_PATTERN_search next) as [u|]; [|reflexivity].
  cbn [mbind option_bind]. destruct (db !! u) as [text|]; [|reflexivity].
  rewrite list_lookup_insert_eq by (eapply lookup_lt_Some; exact Hk).
  cbn [default]. rewrite list_insert_insert_eq.
  rewrite drop_insert_lt by lia.
  replace (drop (S (S k)) ls) with (drop (S (S k)) lines); [reflexivity|].
  apply list_eq. intros i. rewrite !lookup_drop. symmetry. apply Hag. lia.
Qed.

Lemma rewrite_prefix (db : gmap (list N) (list N)) (lines : list (list N))
    (k : nat) :
  (k ≤ length lines)%nat →
  ∃ ls del,
    fold_left (rewrite_step db) (seq 0 k) (lines, ∅) = (ls, del)
    ∧ (∀ i, ls !! i = if decide (i < k)%nat
                      then rewritten_line db lines i <$> lines !! i
                      else lines !! i)
    ∧ (∀ j, j ∈ del ↔ ∃ i, (i < k)%nat ∧ deleted_after db lines i j).
Proof.
  induction k as [|k IH]; intros Hk.
  - exists lines, ∅. split; [reflexivity|]. split; [reflexivity|].
    intros j. split; [intros H; now apply not_elem_of_empty in H|].
    intros (i & Hi & _). lia.
  - destruct IH as (ls & del & Hfold & Hls & Hdel); [lia|].
    destruct (lines !! k) as [line|] eqn:Hline;
      [|apply lookup_ge_None in Hline; lia].
    rewrite seq_S, fold_left_app, Hfold. cbn [fold_left Nat.add].
    rewrite (rewrite_step_run db lines ls del k line); [|
      intros i Hi; rewrite Hls; now destruct (decide (i < k)%nat); [lia|] |
      exact Hline].
    eexists _, _. split; [reflexivity|]. split.
    + intros i. rewrite list_lookup_insert. rewrite Hls.
      assert (Hlen : length ls = length lines).
      { apply Nat.le_antisymm.
        - destruct (decide (length ls ≤ length lines)%nat); [assumption|].
          assert (is_Some (ls !! length lines)) as [x Hx]
            by (apply lookup_lt_is_Some; lia).
          rewrite Hls in Hx. destruct (decide (length lines < k)%nat); [lia|].
          apply lookup_lt_Some in Hx. lia.
        - destruct (decide (length lines ≤ length ls)%nat); [assumption|].
          assert (ls !! length ls = None) as Hx by (apply lookup_ge_None; lia).
          rewrite Hls in Hx. destruct (decide (length ls < k)%nat).
          + apply fmap_None, lookup_ge_None in Hx. lia.
          + apply lookup_ge_None in Hx. lia. }
      destruct (decide (k = i ∧ (k < length ls)%nat)) as [[-> _]|Hn].
      * rewrite decide_True by lia. now rewrite Hline.
      * assert (i ≠ k) by (intros ->; apply Hn; split; [reflexivity|lia]).
        destruct (decide (i < k)%nat); [rewrite decide_True by lia|
                                        rewrite decide_False by lia];
          reflexivity.
    + intros j.
      assert (Hhere : ∀ text, resolved_declaration db lines k = Some text →
        (j ∈ mark_sidecars (drop (S (S k)) lines) (S (S k)) ({[S k]} ∪ del)
         ↔ j ∈ del ∨ deleted_after db lines k j)).
      { intros text Hres. rewrite mark_sidecars_spec. unfold deleted_after.
        rewrite Hres. split.
        - intros [[Hj|Hj]%elem_of_union|[Hj H]].
          + apply elem_of_singleton in Hj as ->. right.
            split; [eauto|]. split; [lia|]. intros i Hi. lia.
          + now left.
          + right. split; [eauto|]. split; [lia|]. intros i Hi.
            destruct (H i Hi) as (l & Hl & Hs). exists l. split; [|exact Hs].
            rewrite lookup_drop in Hl.
            replace (S (S k) + (i - S (S k)))%nat with i in Hl by lia. exact Hl.
        - intros [Hj|(_ & Hlt & H)]; [left; apply elem_of_union; now right|].
          destruct (decide (j = S k)) as [->|Hne].
          + left. apply elem_of_union. left. now apply elem_of_singleton.
          + right. split; [lia|]. intros i Hi.
            destruct (H i Hi) as (l & Hl & Hs). exists l. split; [|exact Hs].
            rewrite lookup_drop.
            replace (S (S k) + (i - S (S k)))%nat with i by lia. exact Hl. }
      destruct (resolved_declaration db lines k) as [text|] eqn:Hres.
      * rewrite (Hhere text eq_refl), Hdel. split.
        -- intros [(i & Hi & H)|H]; [exists i; split; [lia|exact H]|].
           exists k. split; [lia|exact H].
        -- intros (i & Hi & H). destruct (decide (i = k)) as [->|Hne];
             [now right|]. left. exists i. split; [lia|exact H].
      * rewrite Hdel. split.
        -- intros (i & Hi & H). exists i. split; [lia|exact H].
        -- intros (i & Hi & H). exists i. split; [|exact H].
           destruct (decide (i = k)) as [->|Hne]; [|lia].
           destruct H as [[t Ht] _]. rewrite Hres in Ht. discriminate.
Qed.

(** X15.  The loop of the rewriter leaves every line as [rewritten_line]
    gives it from the lines the loop started with: the references of the line
    are substituted, and a line followed by the declaration of a known
    identifier becomes its list marker and the link of that identifier. *)
Theorem rewrite_loop_lines (db : gmap (list N) (list N))
    (new_lines : list (list N)) :
  fst (rewrite_loop db new_lines)
  = imap (rewritten_line db new_lines) new_lines.
Proof.
  unfold rewrite_loop.
  destruct (rewrite_prefix db new_lines (length new_lines) (le_n _))
    as (ls & del & -> & Hls & _).
  cbn [fst]. apply list_eq. intros i. rewrite Hls, list_lookup_imap.
  destruct (decide (i < length new_lines)%nat); [reflexivity|].
  rewrite (proj2 (lookup_ge_None new_lines i)) by lia. reflexivity.
Qed.

(** X16.  The lines that the rewriter deletes are the declarations of the
    identifiers of the database that are not on the first line, and the
    sidecar lines that follow such a declaration without a gap. *)
Theorem rewrite_loop_deleted (db : gmap (list N) (list N))
    (new_lines : list (list N)) (j : nat) :
  j ∈ snd (rewrite_loop db new_lines)
  ↔ ∃ i, deleted_after db new_lines i j.
Proof.
  unfold rewrite_loop.
  destruct (rewrite_prefix db new_lines (length new_lines) (le_n _))
    as (ls & del & -> & _ & Hdel).
  cbn [snd]. rewrite Hdel. split.
  - intros (i & _ & H). now exists i.
  - intros (i & H). exists i. split; [|exact H].
    destruct H as ([t Ht] & _ & _). unfold resolved_declaration in Ht.
    destruct (new_lines !! S i) as [next|] eqn:E; [|discriminate].
    apply lookup_lt_Some in E. lia.
Qed.

Lemma keep_lines_nothing (idx : nat) (lines : list (list N)) (del : gset nat) :
  (∀ j, j ∉ del) → keep_lines idx lines del = lines.
Proof.
  intros Hdel. revert idx. induction lines as [|l t IH]; intros idx; [reflexivity|].
  cbn [keep_lines]. destruct (decide (idx ∈ del)) as [H|_];
    [now apply Hdel in H|]. now rewrite IH.
Qed.

Lemma transform_lines_loop (db : gmap (list N) (list N)) (lines : list (list N)) :
  transform_lines db lines
  = keep_lines 0
      (fst (rewrite_loop db (fst (convert_logseq_properties_to_yaml lines))))
      (snd (rewrite_loop db (fst (convert_logseq_properties_to_yaml lines)))).
Proof.
  unfold transform_lines, rewrite_loop.
  destruct (convert_logseq_properties_to_yaml lines) as [new_lines off].
  cbn [fst]. now destruct (fold_left _ _ _).
Qed.

(** X17.  When no line of the converted file holds two opening parentheses
    in a row or declares an identifier of the database, the rewriter changes
    nothing beyond the conversion of the header. *)
Theorem transform_without_references (db : gmap (list N) (list N))
    (lines : list (list N)) :
  Forall (fun line => contains (lit "((") line = false
                      ∧ ∀ u, UUID_PATTERN_search line = Some u → db !! u = None)
         (fst (convert_logseq_properties_to_yaml lines)) →
  transform_lines db lines = fst (convert_logseq_properties_to_yaml lines).
Proof.
  rewrite transform_lines_loop.
  set (new_lines := fst (convert_logseq_properties_to_yaml lines)).
  intros Hall. unfold rewrite_loop.
  destruct (rewrite_prefix db new_lines (length new_lines) (le_n _))
    as (ls & del & -> & Hls & Hdel).
  cbn [fst snd].
  assert (Hres : ∀ i, resolved_declaration db new_lines i = None).
  { intros i. unfold resolved_declaration.
    destruct (new_lines !! S i) as [next|] eqn:E; [|reflexivity].
    cbn [mbind option_bind].
    destruct (UUID_PATTERN_search next) as [u|] eqn:Eu; [|reflexivity].
    cbn [mbind option_bind]. apply list_elem_of_lookup_2 in E.
    rewrite Forall_forall in Hall. now apply (Hall next E). }
  rewrite keep_lines_nothing.
  - apply list_eq. intros i. rewrite Hls.
    destruct (decide (i < length new_lines)%nat); [|reflexivity].
    destruct (new_lines !! i) as [line|] eqn:E; [|reflexivity].
    cbn [fmap option_fmap option_map]. f_equal.
    unfold rewritten_line. rewrite Hres.
    apply block_ref_sub_go_plain. apply list_elem_of_lookup_2 in E.
    rewrite Forall_forall in Hall. now apply (Hall line E).
  - intros j Hj. apply Hdel in Hj as (i & _ & [t Ht] & _).
    rewrite Hres in Ht. discriminate.
Qed.

Lemma transform_without_references_witness :
  transform_lines ∅ header_lines
  = fst (convert_logseq_properties_to_yaml header_lines).
Proof.
  apply transform_without_references.
  let l := eval vm_compute in (fst (convert_logseq_properties_to_yaml header_lines))
  in change (fst (convert_logseq_properties_to_yaml header_lines)) with l.
  repeat (apply Forall_cons; split;
          [split; [vm_compute; reflexivity|intros; apply lookup_empty]|]).
  apply Forall_nil. exact I.
Defined.

Lemma phase_two_file_effect (file_path : list N) (w : world) :
  id_db (snd (phase_two_file file_path w)) = id_db w
  ∧ ∀ other, other ≠ file_path →
             fs (snd (phase_two_file file_path w)) !! other = fs w !! other.
Proof.
  rewrite phase_two_file_run. cbn [snd].
  destruct (fs w !! file_path) as [node|]; [|now split].
  destruct (data node); [|now split].
  destruct (writable node); [|now split].
  split; [reflexivity|]. intros other Hne. cbn [fs].
  now apply lookup_insert_ne.
Qed.

(** X18.  The rewriter leaves the database as the scanner built it, and the
    files that are not in its list as they were. *)
Theorem rewriter_keeps_database_and_other_files (files : list (list N))
    (w : world) :
  id_db (snd (phase_two_process_and_write files w)) = id_db w
  ∧ ∀ other, other ∉ files →
             fs (snd (phase_two_process_and_write files w)) !! other
             = fs w !! other.
Proof.
  unfold phase_two_process_and_write.
  revert w. induction files as [|p files IH]; intros w; [now split|].
  cbn [for_each]. unfold mbind, M_bind, bind.
  destruct (phase_two_file_effect p w) as [Hdb Hfs].
  pose proof (phase_two_file_run p w) as Hrun.
  destruct (phase_two_file p w) as [[e|[]] w']; [discriminate|].
  cbn [snd] in Hdb, Hfs. destruct (IH w') as [IHdb IHfs]. split.
  - now rewrite IHdb.
  - intros other Hother. apply not_elem_of_cons in Hother as [Hne Hother].
    rewrite IHfs by assumption. now apply Hfs.
Qed.

(** ** The walk over the vault *)

Lemma dir_nested_ind (P : dir → Prop) :
  (∀ subdirs files, Forall (fun nd => P (snd nd)) subdirs →
                    P (Dir subdirs files)) →
  ∀ d, P d.
Proof.
  intros H. fix IH 1. intros [subdirs files]. apply H.
  revert subdirs. fix IHl 1. intros [|[name sub] rest].
  - apply Forall_nil. exact I.
  - apply Forall_cons. split; [apply IH|apply IHl].
Qed.

Lemma listed_Dir (top : list N) (subdirs : list (list N * dir))
    (files : list (list N)) (p : list N) :
  listed top (Dir subdirs files) p
  ↔ (∃ file, file ∈ files ∧ endswith (lit ".md") file = true
             ∧ p = path_join top file)
    ∨ (∃ name sub, (name, sub) ∈ subdirs ∧ contains BACKUP_MARKER name = false
                   ∧ listed (path_join top name) sub p).
Proof.
  split.
  - intros (root & sd & fl & file & Hv & Hf & He & ->).
    inversion Hv; subst.
    + left. now exists file.
    + right. exists name, sub. repeat split; auto.
      exists root, sd, fl, file. now repeat split.
  - intros [(file & Hf & He & ->)|(name & sub & Hin & Hc & Hl)].
    + exists top, subdirs, files, file. repeat split; auto. constructor.
    + destruct Hl as (root & sd & fl & file & Hv & Hf & He & ->).
      exists root, sd, fl, file. repeat split; auto.
      now apply (visits_sub top subdirs files name sub).
Qed.

Lemma md_files_elem (top : list N) (files : list (list N)) (p : list N) :
  p ∈ List.map (path_join top) (List.filter (endswith (lit ".md")) files)
  ↔ ∃ file, file ∈ files ∧ endswith (lit ".md") file = true
            ∧ p = path_join top file.
Proof.
  rewrite list_elem_of_In, in_map_iff. split.
  - intros (file & <- & [Hf He]%filter_In). exists file.
    repeat split; auto. now apply list_elem_of_In.
  - intros (file & Hf & He & ->). exists file. split; [reflexivity|].
    apply filter_In. split; [now apply list_elem_of_In|exact He].
Qed.

Lemma find_markdown_files_listed (d : dir) :
  ∀ top p, p ∈ find_markdown_files top d ↔ listed top d p.
Proof.
  induction d as [subdirs files IH] using dir_nested_ind. intros top p.
  rewrite listed_Dir. cbn [find_markdown_files].
  rewrite elem_of_app, md_files_elem.
  apply or_iff_compat_l.
  induction subdirs as [|[name sub] rest IHrest].
  - split; [intros H; inversion H|].
    intros (name & sub & Hin & _). inversion Hin.
  - apply Forall_cons in IH as [IHsub IH]. specialize (IHrest IH).
    cbn [snd] in IHsub.
    destruct (contains BACKUP_MARKER name) eqn:Ec.
    + rewrite IHrest. split.
      * intros (n & s & Hin & Hc & Hl). exists n, s. repeat split; auto.
        now right.
      * intros (n & s & Hin & Hc & Hl). exists n, s. repeat split; auto.
        apply elem_of_cons in Hin as [[= -> ->]|Hin]; [congruence|exact Hin].
    + rewrite elem_of_app, IHrest, IHsub. split.
      * intros [Hl|(n & s & Hin & Hc & Hl)].
        -- exists name, sub. repeat split; auto. now left.
        -- exists n, s. repeat split; auto. now right.
      * intros (n & s & Hin & Hc & Hl).
        apply elem_of_cons in Hin as [[= -> ->]|Hin]; [now left|].
        right. exists n, s. now repeat split.
Qed.

(** X19.  [find_markdown_files] returns the paths of the entries whose name
    ends in [.md] in the directories that can be reached from the top
    through directories whose names do not hold the backup marker, and
    nothing else. *)
Theorem find_markdown_files_complete (top : list N) (d : dir) (p : list N) :
  p ∈ find_markdown_files top d ↔ listed top d p.
Proof. apply find_markdown_files_listed. Qed.

Lemma startswith_prefix (p s : list N) : startswith p (p ++ s) = true.
Proof.
  induction p as [|c p IH]; [now destruct s|].
  cbn. now rewrite N.eqb_refl, IH.
Qed.

Lemma endswith_app (suffix a s : list N) :
  endswith suffix s = true → endswith suffix (a ++ s) = true.
Proof.
  unfold endswith. rewrite rev_app_distr. intros [rest ->]%startswith_app.
  rewrite <- app_assoc. apply startswith_prefix.
Qed.

Lemma endswith_path_join (suffix a p : list N) :
  endswith suffix p = true → endswith suffix (path_join a p) = true.
Proof.
  intros H. unfold path_join. destruct (startswith [47] p); [exact H|].
  destruct (_ || _); [now apply endswith_app|].
  rewrite app_assoc. now apply endswith_app.
Qed.

(** X20.  Every path that [find_markdown_files] returns ends in [.md],
    whatever the directory names on the way are. *)
Theorem find_markdown_files_md (top : list N) (d : dir) (p : list N) :
  p ∈ find_markdown_files top d → endswith (lit ".md") p = true.
Proof.
  intros (root & sd & fl & file & _ & _ & He & ->)%find_markdown_files_listed.
  now apply endswith_path_join.
Qed.

Lemma find_markdown_files_md_witness :
  endswith (lit ".md") (lit "./pages/a.md") = true.
Proof.
  apply (find_markdown_files_md (lit ".") sample_tree).
  vm_compute. right. left.
Defined.

(** ** The alias normaliser *)

Lemma alias_step_acc (acc : list yval * bool) (item : yval) :
  alias_step acc item
  = (fst acc ++ fst (alias_step ([], false) item),
     snd acc || snd (alias_step ([], false) item)).
Proof.
  unfold alias_step. destruct item as [s| |b|l|st rp]; cbn [fst snd app];
    try (now rewrite orb_false_r).
  destruct (has_comma s); cbn [fst snd app];
    [now rewrite orb_true_r|now rewrite orb_false_r].
Qed.

Lemma fold_alias_step_acc (l : list yval) (acc : list yval * bool) :
  fold_left alias_step l acc
  = (fst acc ++ fst (split_aliases l), snd acc || snd (split_aliases l)).
Proof.
  unfold split_aliases. revert acc. induction l as [|item l IH]; intros acc.
  - cbn. rewrite app_nil_r, orb_false_r. now destruct acc.
  - cbn [fold_left]. rewrite (IH (alias_step acc item)).
    rewrite (IH (alias_step ([], false) item)).
    rewrite (alias_step_acc acc item). cbn [fst snd].
    now rewrite app_assoc, orb_assoc.
Qed.

(** X21.  The loop over the alias items works item by item and keeps the
    order: the result for a list in two parts is the result for the first
    part followed by the result for the second, and the list counts as
    modified when one of the parts does. *)
Theorem split_aliases_app (l1 l2 : list yval) :
  split_aliases (l1 ++ l2)
  = (fst (split_aliases l1) ++ fst (split_aliases l2),
     snd (split_aliases l1) || snd (split_aliases l2)).
Proof.
  unfold split_aliases at 1. rewrite fold_left_app.
  fold (split_aliases l1). apply fold_alias_step_acc.
Qed.

Lemma split_aliases_cons (item : yval) (l : list yval) :
  split_aliases (item :: l)
  = (fst (alias_step ([], false) item) ++ fst (split_aliases l),
     snd (alias_step ([], false) item) || snd (split_aliases l)).
Proof.
  unfold split_aliases at 1. cbn [fold_left]. apply fold_alias_step_acc.
Qed.

Lemma alias_step_modified (item : yval) :
  snd (alias_step ([], false) item) = needs_split item.
Proof.
  unfold alias_step. destruct item as [s| |b|l|st rp]; try reflexivity.
  cbn [needs_split]. now destruct (has_comma s).
Qed.

(** X22.  The alias list counts as modified exactly when one of its items
    is a string with a comma of either script in it; an item that is not a
    string never triggers a rewrite. *)
Theorem was_modified_iff (original_aliases : list yval) :
  snd (split_aliases original_aliases) = existsb needs_split original_aliases.
Proof.
  induction original_aliases as [|item l IH]; [reflexivity|].
  rewrite split_aliases_cons. cbn [snd existsb].
  now rewrite alias_step_modified, IH.
Qed.

(** X23.  The pieces an alias item is split into are never empty and hold
    none of the three characters the item is cut at. *)
Theorem split_items_pieces (item piece : list N) :
  piece ∈ split_items item →
  piece ≠ [] ∧ Forall (fun c => split_class c = false) piece.
Proof.
  unfold split_items. intros H.
  apply list_elem_of_In, filter_In in H as [H Hne].
  apply in_map_iff in H as (raw & <- & Hraw). apply list_elem_of_In in Hraw.
  split.
  - intros E. rewrite E in Hne. discriminate.
  - apply Forall_forall. intros c Hc%strip_elem.
    eapply re_split_go_pieces; [|exact Hraw|exact Hc].
    intros y Hy. inversion Hy.
Qed.

Lemma split_items_pieces_witness :
  lit "B" ≠ [] ∧ Forall (fun c => split_class c = false) (lit "B").
Proof.
  apply (split_items_pieces (lit "A| B ,,C")). vm_compute. right. left.
Defined.

Lemma re_split_go_ext (f g : N → bool) (cur s : list N) :
  Forall (fun c => f c = g c) s → re_split_go f cur s = re_split_go g cur s.
Proof.
  revert cur. induction s as [|c t IH]; intros cur H; [reflexivity|].
  apply Forall_cons in H as [Hc Ht]. cbn [re_split_go]. rewrite Hc.
  destruct (g c); now rewrite IH.
Qed.

(** X24.  On an item without a vertical bar the code splits as the contract
    asks: at the commas of either script and nowhere else. *)
Theorem split_items_without_bar (item : list N) :
  124 ∉ item → split_items item = split_at_commas item.
Proof.
  intros Hbar. unfold split_items, split_at_commas, re_split.
  rewrite (re_split_go_ext split_class is_comma); [reflexivity|].
  apply Forall_forall. intros c Hc. unfold split_class, is_comma.
  destruct (N.eqb_spec c 124) as [->|_]; [contradiction|].
  now rewrite orb_false_r.
Qed.

Lemma split_items_without_bar_witness :
  split_items ([65; FW_COMMA; 32; 66] ++ lit ", C")
  = split_at_commas ([65; FW_COMMA; 32; 66] ++ lit ", C").
Proof.
  apply split_items_without_bar. vm_compute.
  intros H. repeat (apply elem_of_cons in H as [H|H]; [discriminate H|]).
  inversion H.
Defined.

(** X26.  A file that the normaliser reports as modified could be loaded and
    written and had an alias list, and what was written for it holds under
    [aliases] a list of strings only: every alias is written as a quoted
    string, also one that was not a string. *)
Theorem process_modified_strings (reload : post → option post)
    (report_printed error_printed : bool) (f : md_file) :
  snd (process_markdown_file reload report_printed error_printed f)
  = Returns true →
  ∃ p p' l l',
    loaded reload f = Some p
    ∧ writable_file f = true
    ∧ dict_get (lit "aliases") (metadata p) = Some (YSeq l)
    ∧ fst (process_markdown_file reload report_printed error_printed f)
      = Dumped p' true
    ∧ dict_get (lit "aliases") (metadata p') = Some (YSeq l')
    ∧ forallb is_string l' = true
    ∧ length l' = length (fst (split_aliases l)).
Proof.
  destruct (process_cases reload f)
    as [Hst|(p & l & new_aliases & Hl & Hget & Hsplit & Hw & Hrun)].
  { intros H. now destruct (proj2 (Hst report_printed error_printed)). }
  rewrite Hrun. intros _. cbn [fst].
  eexists p, _, l, _. split; [exact Hl|]. split; [exact Hw|].
  split; [exact Hget|]. split; [reflexivity|]. cbn [metadata].
  split; [apply dict_get_set|]. split; [apply quoted_are_strings|].
  rewrite Hsplit. apply length_map.
Qed.

Lemma process_modified_strings_witness :
  ∃ p p' l l',
    loaded Some nested_alias = Some p
    ∧ writable_file nested_alias = true
    ∧ dict_get (lit "aliases") (metadata p) = Some (YSeq l)
    ∧ fst (process_markdown_file Some true true nested_alias) = Dumped p' true
    ∧ dict_get (lit "aliases") (metadata p') = Some (YSeq l')
    ∧ forallb is_string l' = true
    ∧ length l' = length (fst (split_aliases l)).
Proof. apply process_modified_strings. vm_compute. reflexivity. Defined.



(** ** The batch run *)

Lemma process_path_other (reload : post → option post) (c : console)
    (store : gmap (list N) md_file) (file_path p : list N) :
  p ≠ file_path →
  fst (process_path reload c store file_path) !! p = store !! p.
Proof.
  intros Hne. unfold process_path.
  destruct (store !! file_path); [|reflexivity].
  cbn [fst]. now apply lookup_insert_ne.
Qed.

Lemma process_path_domain (reload : post → option post) (c : console)
    (store : gmap (list N) md_file) (file_path p : list N) :
  is_Some (fst (process_path reload c store file_path) !! p)
  ↔ is_Some (store !! p).
Proof.
  unfold process_path. destruct (store !! file_path) as [f|] eqn:E; [|reflexivity].
  cbn [fst]. destruct (decide (p = file_path)) as [->|Hne].
  - rewrite lookup_insert_eq, E. split; eauto.
  - now rewrite lookup_insert_ne.
Qed.

(** One step of the loop that has not been left: the files are those of
    [process_path], and the count grows by one at most. *)
Lemma batch_step_run (reload : post → option post) (c : console)
    (acc : batch_state) (q : list N) :
  raised acc = false →
  files_after (batch_step reload c acc q)
  = fst (process_path reload c (files_after acc) q)
  ∧ modified_files_count (batch_step reload c acc q)
    = match snd (process_path reload c (files_after acc) q) with
      | Returns true => S (modified_files_count acc)
      | _ => modified_files_count acc
      end
  ∧ raised (batch_step reload c acc q)
    = match snd (process_path reload c (files_after acc) q) with
      | Raises => true
      | Returns _ => false
      end.
Proof.
  intros Hr. unfold batch_step. rewrite Hr.
  destruct (process_path reload c (files_after acc) q) as [store [[|]|]];
    cbn; repeat split.
Qed.

Lemma batch_step_raised (reload : post → option post) (c : console)
    (acc : batch_state) (q : list N) :
  raised acc = true → batch_step reload c acc q = acc.
Proof. intros Hr. unfold batch_step. now rewrite Hr. Qed.

Lemma batch_fold_raised (reload : post → option post) (c : console)
    (paths : list (list N)) (acc : batch_state) :
  raised acc = true → fold_left (batch_step reload c) paths acc = acc.
Proof.
  intros Hr. induction paths as [|q paths IH]; [reflexivity|].
  cbn [fold_left]. now rewrite batch_step_raised.
Qed.

Lemma batch_fold_effect (reload : post → option post) (c : console)
    (paths : list (list N)) (acc : batch_state) :
  (modified_files_count acc
   ≤ modified_files_count (fold_left (batch_step reload c) paths acc)
   ≤ modified_files_count acc + length paths)%nat
  ∧ (∀ p, p ∉ paths →
          files_after (fold_left (batch_step reload c) paths acc) !! p
          = files_after acc !! p)
  ∧ (∀ p, is_Some (files_after (fold_left (batch_step reload c) paths acc) !! p)
          ↔ is_Some (files_after acc !! p)).
Proof.
  revert acc. induction paths as [|q paths IH]; intros acc.
  - cbn. repeat split; auto; lia.
  - cbn [fold_left]. destruct (raised acc) eqn:Hr.
    { rewrite batch_step_raised by assumption.
      destruct (IH acc) as (Hn & Hother & Hdom). split; [|split].
      - cbn [length]. lia.
      - intros p [_ Hp]%not_elem_of_cons. now apply Hother.
      - exact Hdom. }
    destruct (batch_step_run reload c acc q Hr) as (Hf & Hn1 & _).
    destruct (IH (batch_step reload c acc q)) as (Hn & Hother & Hdom).
    split; [|split].
    + cbn [length]. rewrite Hn1 in Hn.
      destruct (snd (process_path reload c (files_after acc) q)) as [[|]|]; lia.
    + intros p [Hne Hp]%not_elem_of_cons. rewrite Hother by assumption.
      rewrite Hf. now apply process_path_other.
    + intros p. rewrite Hdom, Hf. apply process_path_domain.
Qed.

(** X28.  The batch run counts at most one modification for each path it
    visits, changes no file outside the paths it visits, and neither creates
    nor removes a file, whether it ends or is left by an exception. *)
Theorem batch_touches_listed_files_only (reload : post → option post)
    (c : console) (path_to_process : list N) (tree : option dir)
    (store : gmap (list N) md_file) :
  (modified_files_count (batch_process_vault reload c path_to_process tree store)
   ≤ length (visited_paths path_to_process tree))%nat
  ∧ (∀ p, p ∉ visited_paths path_to_process tree →
          files_after (batch_process_vault reload c path_to_process tree store) !! p
          = store !! p)
  ∧ (∀ p, is_Some (files_after
                     (batch_process_vault reload c path_to_process tree store) !! p)
          ↔ is_Some (store !! p)).
Proof.
  unfold batch_process_vault, visited_paths, batch_files.
  destruct tree as [d|]; [|cbn; repeat split; auto].
  destruct (c Started); [|cbn; repeat split; auto; lia].
  cbn [files_after modified_files_count].
  destruct (batch_fold_effect reload c (vault_files path_to_process d)
              {| files_after := store; modified_files_count := 0;
                 raised := false |}) as (Hn & Hother & Hdom).
  cbn [files_after modified_files_count] in *.
  split; [lia|]. split; assumption.
Qed.

Lemma process_path_stable (reload : post → option post) (c : console)
    (store : gmap (list N) md_file) (p : list N) :
  (∀ f, store !! p = Some f → stable reload f) →
  fst (process_path reload c store p) = store
  ∧ snd (process_path reload c store p) ≠ Returns true.
Proof.
  intros H. unfold process_path. destruct (store !! p) as [f|] eqn:E.
  - destruct (H f eq_refl (c (Modified p)) (c (Failed p))) as [Hf Hs].
    cbn [fst snd]. rewrite Hf. split; [now apply insert_id|exact Hs].
  - split; [reflexivity|apply handler_not_true].
Qed.

Lemma batch_fold_stable (reload : post → option post) (c : console)
    (paths : list (list N)) (acc : batch_state) :
  (∀ p f, p ∈ paths → files_after acc !! p = Some f → stable reload f) →
  files_after (fold_left (batch_step reload c) paths acc) = files_after acc
  ∧ modified_files_count (fold_left (batch_step reload c) paths acc)
    = modified_files_count acc.
Proof.
  revert acc. induction paths as [|q paths IH]; intros acc H; [now split|].
  cbn [fold_left]. destruct (raised acc) eqn:Hr.
  { rewrite batch_step_raised by assumption. apply IH.
    intros p f Hp. apply H. now right. }
  destruct (batch_step_run reload c acc q Hr) as (Hf & Hn & _).
  destruct (process_path_stable reload c (files_after acc) q) as [Hs1 Hs2].
  { intros f. apply H. now left. }
  rewrite Hs1 in Hf.
  assert (Hn' : modified_files_count (batch_step reload c acc q)
                = modified_files_count acc).
  { rewrite Hn.
    destruct (snd (process_path reload c (files_after acc) q)) as [[|]|];
      [now contradict Hs2|reflexivity|reflexivity]. }
  destruct (IH (batch_step reload c acc q)) as [IH1 IH2].
  { intros p f Hp. rewrite Hf. apply H. now right. }
  split; congruence.
Qed.

Lemma stable_plain_or (reload : post → option post)
    (report_printed error_printed : bool) (f : md_file) :
  reads_back_aliases reload →
  plain_aliases reload f ∨ stable reload f →
  stable reload (fst (process_markdown_file reload report_printed error_printed f)).
Proof.
  intros Hback [H|H]; [now apply process_makes_stable|].
  now rewrite (proj1 (H report_printed error_printed)).
Qed.

Lemma batch_fold_keeps_stable (reload : post → option post) (c : console)
    (paths : list (list N)) (acc : batch_state) (p : list N) (g : md_file) :
  files_after acc !! p = Some g → stable reload g →
  files_after (fold_left (batch_step reload c) paths acc) !! p = Some g.
Proof.
  revert acc. induction paths as [|q paths IH]; intros acc Hg Hs; [exact Hg|].
  cbn [fold_left]. apply IH; [|exact Hs]. destruct (raised acc) eqn:Hr.
  { now rewrite batch_step_raised. }
  destruct (batch_step_run reload c acc q Hr) as (Hf & _ & _). rewrite Hf.
  destruct (decide (p = q)) as [->|Hne].
  - unfold process_path. rewrite Hg. cbn [fst].
    rewrite (proj1 (Hs (c (Modified q)) (c (Failed q)))).
    apply lookup_insert_eq.
  - now rewrite process_path_other.
Qed.

(** A loop that was not left has made every file it visited stable. *)
Lemma batch_fold_makes_stable (reload : post → option post) (c : console)
    (paths : list (list N)) (acc : batch_state) :
  reads_back_aliases reload →
  (∀ p f, files_after acc !! p = Some f →
          plain_aliases reload f ∨ stable reload f) →
  raised (fold_left (batch_step reload c) paths acc) = false →
  ∀ p f, p ∈ paths →
         files_after (fold_left (batch_step reload c) paths acc) !! p = Some f →
         stable reload f.
Proof.
  intros Hback. revert acc.
  induction paths as [|q paths IH]; intros acc Hstore Hend p f Hp;
    [inversion Hp|].
  cbn [fold_left] in *. destruct (raised acc) eqn:Hr.
  { rewrite batch_step_raised, batch_fold_raised in Hend by assumption.
    congruence. }
  destruct (batch_step_run reload c acc q Hr) as (Hf & _ & _).
  set (acc1 := batch_step reload c acc q) in *.
  assert (Hq : ∀ g, files_after acc1 !! q = Some g → stable reload g).
  { intros g. rewrite Hf. unfold process_path.
    destruct (files_after acc !! q) as [g0|] eqn:E; cbn [fst]; [|congruence].
    rewrite lookup_insert_eq. intros [= <-]. apply stable_plain_or; [exact Hback|].
    now apply (Hstore q). }
  assert (H1 : ∀ p' f', files_after acc1 !! p' = Some f' →
                        plain_aliases reload f' ∨ stable reload f').
  { intros p' f' Hf'. destruct (decide (p' = q)) as [->|Hne];
      [right; now apply Hq|].
    rewrite Hf, process_path_other in Hf' by assumption.
    now apply (Hstore p'). }
  apply elem_of_cons in Hp as [->|Hp]; [|now apply (IH acc1 H1 Hend p)].
  intros Hfq.
  destruct (batch_fold_effect reload c paths acc1) as (_ & _ & Hdom).
  assert (is_Some (files_after acc1 !! q)) as [g Hg] by (apply Hdom; eauto).
  pose proof (Hq g Hg) as Hs.
  rewrite (batch_fold_keeps_stable reload c paths acc1 q g Hg Hs) in Hfq.
  now injection Hfq as <-.
Qed.

(** X29.  Let no alias item that is not a string hold a comma in its text,
    and let a dumped list of strings be read back as it was dumped.  After
    a batch run that was not left by an exception, a second run over the same
    tree changes no file and counts none, whatever can be printed then. *)
Theorem batch_second_run (reload : post → option post) (c1 c2 : console)
    (path_to_process : list N) (tree : option dir)
    (store : gmap (list N) md_file) :
  reads_back_aliases reload →
  (∀ p f, store !! p = Some f → plain_aliases reload f) →
  raised (batch_process_vault reload c1 path_to_process tree store) = false →
  files_after
    (batch_process_vault reload c2 path_to_process tree
       (files_after (batch_process_vault reload c1 path_to_process tree store)))
  = files_after (batch_process_vault reload c1 path_to_process tree store)
  ∧ modified_files_count
      (batch_process_vault reload c2 path_to_process tree
         (files_after (batch_process_vault reload c1 path_to_process tree store)))
    = 0%nat.
Proof.
  intros Hback Hstore. unfold batch_process_vault.
  destruct tree as [d|]; [|now split].
  destruct (c1 Started); [|discriminate].
  cbn [files_after modified_files_count raised].
  intros [Hend _]%orb_false_iff.
  destruct (c2 Started); [|now split].
  cbn [files_after modified_files_count]. unfold batch_files in *.
  apply (batch_fold_stable reload c2 (vault_files path_to_process d)
           {| files_after := _; modified_files_count := 0; raised := false |}).
  cbn [files_after].
  apply (batch_fold_makes_stable reload c1); [exact Hback| |exact Hend].
  intros p f Hf. left. now apply (Hstore p).
Qed.

Lemma batch_second_run_witness :
  files_after
    (batch_process_vault Some quiet (lit "/v") (Some sample_tree)
       (files_after
          (batch_process_vault Some quiet (lit "/v") (Some sample_tree)
             {[lit "/v/index.md" := mixed_alias]})))
  = files_after
      (batch_process_vault Some quiet (lit "/v") (Some sample_tree)
         {[lit "/v/index.md" := mixed_alias]})
  ∧ modified_files_count
      (batch_process_vault Some quiet (lit "/v") (Some sample_tree)
         (files_after
            (batch_process_vault Some quiet (lit "/v") (Some sample_tree)
               {[lit "/v/index.md" := mixed_alias]})))
    = 0%nat.
Proof.
  apply batch_second_run.
  - intros p p' l [= <-] H _. exact H.
  - intros p f [_ <-]%lookup_singleton_Some. vm_compute. reflexivity.
  - vm_compute. reflexivity.
Defined.

(** ** Blocks that only refer to another block *)

Lemma token_shape (u : list N) :
  token u = 40 :: 40 :: u ++ [41; 41].
Proof. reflexivity. Qed.

Lemma strip_bounded (c d : N) (m : list N) :
  is_space c = false → is_space d = false →
  strip (c :: m ++ [d]) = c :: m ++ [d].
Proof.
  intros Hc Hd. unfold strip, rstrip. cbn [lstrip]. rewrite Hc.
  assert (Hrev : rev (c :: m ++ [d]) = d :: rev m ++ [c])
    by (cbn [rev]; now rewrite rev_app_distr).
  rewrite Hrev. cbn [lstrip]. rewrite Hd. rewrite <- Hrev.
  apply rev_involutive.
Qed.

Lemma strip_token (u : list N) : strip (token u) = token u.
Proof.
  assert (E : token u = 40 :: (40 :: u ++ [41]) ++ [41]).
  { rewrite token_shape. cbn [app]. now rewrite <- app_assoc. }
  rewrite E. now apply strip_bounded.
Qed.

Lemma fullmatch_token (u : list N) :
  is_identifier u → BLOCK_REF_PATTERN_fullmatch (token u) = true.
Proof.
  intros Hu. unfold BLOCK_REF_PATTERN_fullmatch.
  pose proof (BLOCK_REF_PATTERN_at_token u [] Hu) as Hat.
  rewrite app_nil_r in Hat. rewrite Hat, token_length by assumption.
  reflexivity.
Qed.

(** X30.  A declaration whose content line is nothing but a reference token,
    with or without a list marker, stores nothing: the database is left as it
    was. *)
Theorem reference_only_block_is_skipped (lines : list (list N)) (i idx : nat)
    (page_num : option (list N)) (content_line line u : list N)
    (db : gmap (list N) (list N)) :
  backward_walk lines i None = (page_num, Some idx) →
  lines !! idx = Some content_line →
  strip content_line = token u ∨ strip content_line = lit "- " ++ token u →
  is_identifier u →
  block_text lines i = None ∧ scan_line lines i line db = db.
Proof.
  intros Hwalk Hidx Hc Hu.
  assert (Hb : block_text lines i = None).
  { unfold block_text. rewrite Hwalk, Hidx.
    change (default [] (Some content_line)) with content_line.
    destruct Hc as [-> | ->].
    - rewrite token_shape. cbn [startswith lit].
      replace (startswith (lit "- ") (40 :: 40 :: u ++ [41; 41])) with false
        by reflexivity.
      rewrite <- token_shape. now rewrite fullmatch_token.
    - replace (startswith (lit "- ") (lit "- " ++ token u)) with true
        by reflexivity.
      change (drop 2 (lit "- " ++ token u)) with (token u).
      now rewrite strip_token, fullmatch_token. }
  split; [exact Hb|]. unfold scan_line. rewrite Hb.
  now destruct (UUID_PATTERN_search line).
Qed.

Lemma reference_only_block_is_skipped_witness :
  block_text [lit "- " ++ token ID1 ++ [10]; lit "id:: " ++ ID1 ++ [10]] 1 = None
  ∧ scan_line [lit "- " ++ token ID1 ++ [10]; lit "id:: " ++ ID1 ++ [10]] 1
      (lit "id:: " ++ ID1 ++ [10]) sample_db
    = sample_db.
Proof.
  apply (reference_only_block_is_skipped _ 1 0 None
           (lit "- " ++ token ID1 ++ [10]) _ ID1).
  - vm_compute. reflexivity.
  - reflexivity.
  - right. vm_compute. reflexivity.
  - split; vm_compute; reflexivity.
Defined.
